(** * complex_networks: country distances and co-mention counts

  A shallow embedding of [code_geo.py] (reference table, [haversine],
  [compute_distance]) and of [plot.py] (the co-mention counting loop of
  [plot_top_country_pairs] and [plot_country_network], and
  [plot_pair_mentions_by_subject]).

  Modelling conventions.
  - A Python [str] is a [string]; the characters are ASCII (alpha-3 codes,
    subject labels), so [upper] and [strip] are the ASCII restrictions of
    [str.upper] and [str.strip].
  - A Python [float] is read as the real number of [R] it stands for:
    arithmetic is exact and the rounding of doubles is not modelled.  The
    domain checks of [math.sqrt] and [math.asin] are kept: outside their
    domain they raise [ValueError].  What is proved of [haversine] is
    therefore the value of the formula over the real numbers; nothing here
    says that the rounded computation of the code stays inside the domain
    of [math.asin].
  - A Python [int] counter value is a [Z].
  - A function that can raise returns a [result]; a function that prints or
    draws returns the list of the calls it made together with its value. *)

From Stdlib Require Import List Bool Arith ZArith Lia.
From Stdlib Require Import Ascii String.
From Stdlib Require Import Reals Lra Psatz.
From Stdlib Require Import Sorting.Sorted Sorting.Permutation.
Import ListNotations.

Set Implicit Arguments.

(* ================================================================== *)
(** * Strings *)

Module Str.

Local Open Scope char_scope.
Local Open Scope string_scope.

(** [c.upper()] for one ASCII character: [a]..[z] move down by 32. *)
Definition upper_char (c : ascii) : ascii :=
  let n := nat_of_ascii c in
  if (97 <=? n)%nat && (n <=? 122)%nat then ascii_of_nat (n - 32) else c.

(** [s.upper()] *)
Fixpoint upper (s : string) : string :=
  match s with
  | EmptyString => EmptyString
  | String c t => String (upper_char c) (upper t)
  end.

(** The double quote character, code point 34. *)
Definition quote : ascii := "034".

(** [s.replace(q, '')] for a one-character [q]: every occurrence goes. *)
Fixpoint remove_char (q : ascii) (s : string) : string :=
  match s with
  | EmptyString => EmptyString
  | String c t => if (c =? q)%char then remove_char q t
                  else String c (remove_char q t)
  end.

(** [c.isspace()] on ASCII: tab, line feed, vertical tab, form feed,
    carriage return (9..13), the separators 28..31 and the space. *)
Definition isspace (c : ascii) : bool :=
  let n := nat_of_ascii c in
  ((9 <=? n)%nat && (n <=? 13)%nat) || ((28 <=? n)%nat && (n <=? 32)%nat).

(** [s.lstrip()] *)
Fixpoint lstrip (s : string) : string :=
  match s with
  | EmptyString => EmptyString
  | String c t => if isspace c then lstrip t else s
  end.

(** [s.rstrip()] *)
Fixpoint rstrip (s : string) : string :=
  match s with
  | EmptyString => EmptyString
  | String c t =>
      match rstrip t with
      | EmptyString => if isspace c then EmptyString
                       else String c EmptyString
      | t' => String c t'
      end
  end.

(** [s.strip()] *)
Definition strip (s : string) : string := rstrip (lstrip s).

(** [s.split(sep)] for a one-character separator: the pieces between
    the separators, empty pieces included; never the empty list. *)
Fixpoint split (sep : ascii) (s : string) : list string :=
  match s with
  | EmptyString => [EmptyString]
  | String c t =>
      if (c =? sep)%char then EmptyString :: split sep t
      else match split sep t with
           | piece :: rest => String c piece :: rest
           | [] => [String c EmptyString]
           end
  end.

(** [bool(s)]: a string is truthy when it is not empty. *)
Definition truthy (s : string) : bool :=
  match s with EmptyString => false | String _ _ => true end.

(** [x in xs] for a list (or array) of strings. *)
Definition isin (x : string) (xs : list string) : bool :=
  existsb (String.eqb x) xs.

(** [a < b] on strings: the order of the code points, first difference
    first, a proper prefix before the longer string. *)
Definition lt (a b : string) : Prop := String.ltb a b = true.

End Str.

(* ================================================================== *)
(** * Results of functions that can raise *)

Inductive exception : Type :=
| ValueError   (** [math domain error] *)
| IndexError   (** index 0 of an empty selection *)
| KeyError.    (** a column that the frame does not have *)

Inductive result (A : Type) : Type :=
| Return (a : A)
| Raise (e : exception).

Arguments Return {A} a.
Arguments Raise {A} e.

Definition bind {A B : Type} (m : result A) (k : A -> result B) : result B :=
match m with
| Return a => k a
| Raise e => Raise e
end.

Notation "x <- m ;; k" := (bind m (fun x => k))
(at level 61, m at next level, right associativity).

(** A value that [compute_distance] hands back: a message or a number. *)
Inductive value : Type :=
| VStr (s : string)
| VFloat (x : R).

(* ================================================================== *)
(** * code_geo.py *)

Module CodeGeo.

Import Str.
Local Open Scope R_scope.

(** One row of the reference table, with the three columns the module
    reads: [Alpha-3 code], [Latitude (average)], [Longitude (average)].
    The two coordinate columns are taken after their coercion to
    numbers (lines 8-20). *)
Record CountryRecord : Type := mkCountry {
  code : string;
  latitude : R;
  longitude : R
}.

Definition DataFrame : Type := list CountryRecord.

(** Lines 22-27: the code column loses its quote characters and its
    surrounding white space.  The letter case is left as it is. *)
Definition clean_code (s : string) : string := strip (remove_char quote s).

Definition clean_codes (raw : DataFrame) : DataFrame :=
  map (fun r => mkCountry (clean_code (code r)) (latitude r) (longitude r)) raw.

(** [df["Alpha-3 code"].values] *)
Definition codes (df : DataFrame) : list string := map code df.

(** [df.loc[df["Alpha-3 code"] == iso, [lat, lon]].values[0]]: the
    coordinates of the first row whose code is [iso]; an empty selection
    has no row 0. *)
Definition loc (df : DataFrame) (iso : string) : result (R * R) :=
  match find (fun r => (code r =? iso)%string) df with
  | Some r => Return (latitude r, longitude r)
  | None => Raise IndexError
  end.

(** [math.radians] *)
Definition radians (x : R) : R := x * (PI / 180).

(** [math.sqrt]: raises on a negative argument. *)
Definition math_sqrt (x : R) : result R :=
  if Rlt_dec x 0 then Raise ValueError else Return (sqrt x).

(** [math.asin]: raises outside [[-1, 1]]. *)
Definition math_asin (x : R) : result R :=
  if Rlt_dec x (-1) then Raise ValueError
  else if Rlt_dec 1 x then Raise ValueError
  else Return (asin x).

(** The quantity [a] of lines 33-36, over the real numbers. *)
Definition hav_a (lat1 lon1 lat2 lon2 : R) : R :=
  let dlat := radians (lat2 - lat1) in
  let dlon := radians (lon2 - lon1) in
  sin (dlat / 2) ^ 2 +
  cos (radians lat1) * cos (radians lat2) * sin (dlon / 2) ^ 2.

(** Lines 29-38, over the real numbers. *)
Definition haversine (lat1 lon1 lat2 lon2 : R) : result R :=
  let R_km := 6371 in
  let a := hav_a lat1 lon1 lat2 lon2 in
  s <- math_sqrt a ;;
  h <- math_asin s ;;
  let c := 2 * h in
  Return (R_km * c).

Definition msg_equal : string := "They are equal".

(** [f"{iso1} or {iso2} doesn't exist"] *)
Definition msg_missing (iso1 iso2 : string) : string :=
  (iso1 ++ " or " ++ iso2 ++ " doesn't exist")%string.

Definition compute_distance (df : DataFrame) (iso1 iso2 : string)
  : result value :=
  let iso1 := upper iso1 in
  let iso2 := upper iso2 in
  if (iso1 =? iso2)%string then Return (VStr msg_equal)
  else if negb (isin iso1 (codes df)) || negb (isin iso2 (codes df))
  then Return (VStr (msg_missing iso1 iso2))
  else
    p1 <- loc df iso1 ;;
    let '(lat1, lon1) := p1 in
    p2 <- loc df iso2 ;;
    let '(lat2, lon2) := p2 in
    d <- haversine lat1 lon1 lat2 lon2 ;;
    Return (VFloat d).

(** ** Tables used in the examples *)

(** Two rows as the reference file has them. *)
Definition table_upper : DataFrame :=
  clean_codes [mkCountry " USA " 38 (-97); mkCountry "CAN" 60 (-95)].

(** The same rows with the first code in lower case. *)
Definition table_lower : DataFrame :=
  clean_codes [mkCountry "usa" 38 (-97); mkCountry "CAN" 60 (-95)].

(** A table with one row. *)
Definition table_can : DataFrame :=
  clean_codes [mkCountry "CAN" 60 (-95)].

End CodeGeo.

(* ================================================================== *)
(** * plot.py *)

(** [collections.Counter]: a dict, so the keys keep the order of their
  first insertion; a key that is absent reads as 0. *)
Section Counter.

Variable K : Type.
Variable K_eqb : K -> K -> bool.

Definition Counter : Type := list (K * Z).

(** [counter[k]] *)
Fixpoint get (counter : Counter) (k : K) : Z :=
  match counter with
  | [] => 0
  | (k', n) :: rest => if K_eqb k' k then n else get rest k
  end.

(** [counter[k] += 1] *)
Fixpoint incr (counter : Counter) (k : K) : Counter :=
  match counter with
  | [] => [(k, 1%Z)]
  | (k', n) :: rest =>
      if K_eqb k' k then (k', (n + 1)%Z) :: rest
      else (k', n) :: incr rest k
  end.

Definition keys (counter : Counter) : list K := map fst counter.

(** [not counter] *)
Definition is_empty (counter : Counter) : bool :=
  match counter with [] => true | _ :: _ => false end.

(** How often [k] is met in a list of keys (used to state what a run
    of increments does). *)
Fixpoint occurrences (l : list K) (k : K) : Z :=
  match l with
  | [] => 0%Z
  | k0 :: rest => ((if K_eqb k0 k then 1 else 0) + occurrences rest k)%Z
  end.

End Counter.

Module Plot.

Import Str.

(** A record of the corpus with the two columns the module reads.  A
    cell of [countries_mentioned_list] is a Python list of codes or is
    missing; a cell of [subjareas] is a string or is missing. *)
Record MentionRecord : Type := mkMention {
  countries_mentioned_list : option (list string);
  subjareas : option string
}.

Definition DataFrame : Type := list MentionRecord.

(** [column.dropna()] *)
Fixpoint dropna {A : Type} (column : list (option A)) : list A :=
  match column with
  | [] => []
  | Some x :: rest => x :: dropna rest
  | None :: rest => dropna rest
  end.

(** [set(lst)]: the distinct elements, in no particular order. *)
Definition to_set (lst : list string) : list string :=
  nodup string_dec lst.

Fixpoint insert (x : string) (l : list string) : list string :=
  match l with
  | [] => [x]
  | y :: rest => if String.leb x y then x :: l else y :: insert x rest
  end.

(** [sorted(xs)] *)
Definition sorted (xs : list string) : list string :=
  fold_right insert [] xs.

(** [itertools.combinations(xs, 2)]: the pairs of positions [i < j],
    in lexicographic order of the positions. *)
Fixpoint combinations2 {A : Type} (xs : list A) : list (A * A) :=
  match xs with
  | [] => []
  | a :: rest => map (pair a) rest ++ combinations2 rest
  end.

Definition Pair : Type := (string * string)%type.

Definition Pair_eqb (p q : Pair) : bool :=
  (fst p =? fst q)%string && (snd p =? snd q)%string.

(** The body of the counting loop (lines 31-33 and 78-80): one record's
    list is added to the counter. *)
Definition count_record (counter : Counter Pair) (lst : list string)
  : Counter Pair :=
  let uniq := sorted (to_set lst) in
  fold_left (incr Pair_eqb) (combinations2 uniq) counter.

(** The counting loop of [plot_top_country_pairs] (lines 29-33) and of
    [plot_country_network] (lines 76-80), which are the same text. *)
Definition count_co_mentions (df : DataFrame) : Counter Pair :=
  fold_left count_record (dropna (map countries_mentioned_list df)) [].

(** ** The subject breakdown *)

(** [pd.Series]: labels with their values, in order. *)
Definition Series : Type := list (string * Z).

(** What the function does to the outside: a line printed, or a call
    into matplotlib. *)
Inductive call : Type :=
| print (line : string)
| plt_figure
| plot_bar (data : Series)
| plt_xlabel (s : string)
| plt_ylabel (s : string)
| plt_title (s : string)
| plt_xticks
| plt_tight_layout
| plt_show.

Fixpoint insert_desc (x : string * Z) (l : Series) : Series :=
  match l with
  | [] => [x]
  | y :: rest => if (snd y <=? snd x)%Z then x :: l
                 else y :: insert_desc x rest
  end.

(** [series.sort_values(ascending=False)].  pandas does not fix the
    order among equal counts; here they keep the order of the series. *)
Definition sort_values_desc (s : Series) : Series :=
  fold_right insert_desc [] s.

(** [series.head(n)]: the first [n] rows, or all but the last [-n]. *)
Definition head (n : Z) (s : Series) : Series :=
  if (0 <=? n)%Z then firstn (Z.to_nat n) s
  else firstn (List.length s - Z.to_nat (- n)) s.

(** The mask of line 139 for one record. *)
Definition mentions_both (c1 c2 : string) (r : MentionRecord) : bool :=
  match countries_mentioned_list r with
  | Some lst => isin c1 lst && isin c2 lst
  | None => false
  end.

(** Lines 145-148: the labels of one entry are added to the counter. *)
Definition count_entry (counter : Counter string) (entry : string)
  : Counter string :=
  fold_left
    (fun counter subj =>
       let subj := strip subj in
       if truthy subj then incr String.eqb counter subj else counter)
    (split "," entry) counter.

(** Lines 143-148. *)
Definition count_subjects (df_pair : DataFrame) : Counter string :=
  fold_left count_entry (dropna (map subjareas df_pair)) [].

Definition msg_no_records (c1 c2 : string) : string :=
  ("No records found mentioning both " ++ c1 ++ " and " ++ c2 ++ ".")%string.

Definition title_pair (c1 c2 : string) : string :=
  ("Papers mentioning both " ++ upper c1 ++ " & " ++ upper c2
     ++ " by Subject")%string.

(** The function, with the two places where pandas raises.  On a frame
    without rows the mask of line 139 is an empty series that is not
    boolean: [df[mask]] then selects columns, keeps none, and line 144
    finds no column [subj_col].  A series without rows cannot be drawn:
    [.plot] of line 161 raises after [plt.figure] was called. *)
Definition plot_pair_mentions_by_subject
    (df : DataFrame) (country_pair : string * string) (top_n : option Z)
  : list call * result Series :=
  let '(c1, c2) := country_pair in
  match df with
  | [] => ([], Raise KeyError)
  | _ :: _ =>
      let df_pair := filter (mentions_both c1 c2) df in
      let counter := count_subjects df_pair in
      if is_empty counter then
        ([print (msg_no_records c1 c2)], Return [])
      else
        let subj_series := sort_values_desc counter in
        let subj_series :=
          match top_n with
          | Some n => if (n =? 0)%Z then subj_series else head n subj_series
          | None => subj_series
          end in
        match subj_series with
        | [] => ([plt_figure], Raise IndexError)
        | _ :: _ =>
            ([plt_figure;
              plot_bar subj_series;
              plt_xlabel "Subject Area";
              plt_ylabel "Number of papers mentioning both";
              plt_title (title_pair c1 c2);
              plt_xticks;
              plt_tight_layout;
              plt_show],
             Return subj_series)
        end
  end.

(** The calls that draw something. *)
Definition renders (c : call) : bool :=
  match c with
  | print _ => false
  | _ => true
  end.

(** The test of line 147 fails on a piece. *)
Definition blank (subj : string) : bool := negb (truthy (strip subj)).

(** A record gives no label: its subject field is missing, or every piece
    between its commas is empty or white space. *)
Definition no_label (r : MentionRecord) : Prop :=
  match subjareas r with
  | None => True
  | Some entry =>
      Forall (fun subj => strip subj = EmptyString) (split "," entry)
  end.

(** ** Corpora used in the examples *)

Definition corpus_pairs : DataFrame :=
  [mkMention (Some ["USA"; "CAN"]) (Some "PHYS,MATH");
   mkMention (Some ["USA"; "CAN"; "MEX"]) (Some "MATH");
   mkMention None (Some "CHEM");
   mkMention (Some ["MEX"; "CAN"]) None;
   mkMention (Some []) None]%string.

(** Both records mention USA and CAN; neither gives a label. *)
Definition corpus_no_label : DataFrame :=
  [mkMention (Some ["USA"; "CAN"]) None;
   mkMention (Some ["CAN"; "USA"; "MEX"]) (Some " , ,")]%string.

End Plot.

(* ================================================================== *)
(** * Further definitions *)

Module StrShape.

Import Str.

(** Every character is white space. *)
Fixpoint all_space (s : string) : bool :=
  match s with
  | EmptyString => true
  | String c t => isspace c && all_space t
  end.

(** The first character is white space. *)
Definition head_space (s : string) : bool :=
  match s with
  | EmptyString => false
  | String c _ => isspace c
  end.

(** The last character is white space. *)
Fixpoint last_space (s : string) : bool :=
  match s with
  | EmptyString => false
  | String c EmptyString => isspace c
  | String _ t => last_space t
  end.

(** [q in s] for a character [q]. *)
Fixpoint has_char (q : ascii) (s : string) : bool :=
  match s with
  | EmptyString => false
  | String c t => (c =? q)%char || has_char q t
  end.

(** [s.count(q)] for a character [q]. *)
Fixpoint count_char (q : ascii) (s : string) : nat :=
  match s with
  | EmptyString => 0
  | String c t => (if (c =? q)%char then 1 else 0) + count_char q t
  end.

End StrShape.

Module GeoExamples.

Import CodeGeo.
Local Open Scope R_scope.

(** Two codes with one centroid, and a later row that repeats a code. *)
Definition table_twins : DataFrame :=
  [mkCountry "AAA" 10 20; mkCountry "BBB" 10 20; mkCountry "AAA" 50 60].

End GeoExamples.

(** [pd.Series] with labels of any type: the rows in order. *)
Section SeriesOf.

Variable L : Type.

Fixpoint insert_by_value (x : L * Z) (l : list (L * Z)) : list (L * Z) :=
  match l with
  | [] => [x]
  | y :: rest => if (snd y <=? snd x)%Z then x :: l
                 else y :: insert_by_value x rest
  end.

(** [series.sort_values(ascending=False)].  pandas does not fix the order
    among equal values; here they keep the order of the series. *)
Definition sort_values (s : list (L * Z)) : list (L * Z) :=
  fold_right insert_by_value [] s.

(** [series.head(n)]: the first [n] rows, or all but the last [-n]. *)
Definition head_rows (n : Z) (s : list (L * Z)) : list (L * Z) :=
  if (0 <=? n)%Z then firstn (Z.to_nat n) s
  else firstn (List.length s - Z.to_nat (- n)) s.

(** The sum of the values. *)
Definition total (s : list (L * Z)) : Z :=
  fold_right (fun row acc => (snd row + acc)%Z) 0%Z s.

End SeriesOf.

Module PlotData.

Import Str Plot.

(** Line 36 of [plot_top_country_pairs]: the series that is drawn. *)
Definition top_series (df : DataFrame) (top_n : Z) : list (Pair * Z) :=
  head_rows top_n (sort_values (count_co_mentions df)).

(** Line 83 of [plot_country_network]: the edges that are kept, with
    their weights.  The labels of a series are distinct, so the dict has
    the rows of the series. *)
Definition top_dict (df : DataFrame) (top_edges : Z) : list (Pair * Z) :=
  head_rows top_edges (sort_values (count_co_mentions df)).

(** Line 89: [max(top_dict.values()) if top_dict else 1]. *)
Definition max_w (top_dict : list (Pair * Z)) : Z :=
  match map snd top_dict with
  | [] => 1%Z
  | w :: ws => fold_left Z.max ws w
  end.

(** Line 90: the width of an edge of weight [w], [w / max_w * 20]. *)
Definition width (max_w w : Z) : R := (IZR w / IZR max_w * 20)%R.

(** The labels that lines 145-148 count for one entry. *)
Definition labels_of_entry (entry : string) : list string :=
  filter truthy (map strip (split "," entry)).

(** The labels counted over the records that were selected. *)
Definition labels_of (df_pair : DataFrame) : list string :=
  flat_map labels_of_entry (dropna (map subjareas df_pair)).

(** Lines 155-157: the counter as a series in descending order, cut to
    [top_n] rows when [top_n] is given and is not 0. *)
Definition subj_series_of (counter : Counter string) (top_n : option Z)
  : list (string * Z) :=
  match top_n with
  | Some n => if (n =? 0)%Z then sort_values counter
              else head_rows n (sort_values counter)
  | None => sort_values counter
  end.

(** ** Corpora used in the examples *)

Definition corpus_labels : DataFrame :=
  [mkMention (Some ["USA"; "CAN"]) (Some "PHYS, MATH,,PHYS ");
   mkMention (Some ["CAN"; "USA"; "MEX"]) (Some "MATH");
   mkMention (Some ["USA"]) (Some "CHEM")]%string.

End PlotData.

(* ================================================================== *)
(** * Facts about the string functions *)

Module StrFacts.

Import Str.

Lemma upper_char_idem (c : ascii) : upper_char (upper_char c) = upper_char c.
Proof.
  destruct c as [[] [] [] [] [] [] [] []]; reflexivity.
Qed.

(** Upper-casing twice is upper-casing once. *)
Lemma upper_idem (s : string) : upper (upper s) = upper s.
Proof.
  induction s as [|c t IH]; simpl.
  - reflexivity.
  - now rewrite upper_char_idem, IH.
Qed.

Lemma isin_In (x : string) (xs : list string) :
  isin x xs = true <-> In x xs.
Proof.
  unfold isin. rewrite existsb_exists. split.
  - intros [y [Hy Heq]]. apply String.eqb_eq in Heq. now subst.
  - intros H. exists x. split; [assumption | apply String.eqb_refl].
Qed.

Lemma isin_not_In (x : string) (xs : list string) :
  isin x xs = false <-> ~ In x xs.
Proof.
  rewrite <- isin_In. destruct (isin x xs); split; congruence.
Qed.

Lemma length_append (s t : string) :
  String.length (s ++ t) = String.length s + String.length t.
Proof.
  induction s as [|c s IH]; simpl; [reflexivity | now rewrite IH].
Qed.

End StrFacts.

(* ================================================================== *)
(** * The distance calculator *)

Module GeoSpec.

Import Str StrFacts CodeGeo.

(** ** Table lookups *)

Lemma find_code_some (df : DataFrame) (c : string) :
  In c (codes df) ->
  exists r, find (fun r => (code r =? c)%string) df = Some r
            /\ In r df /\ code r = c.
Proof.
  induction df as [|r0 df IH]; simpl; intros H.
  - contradiction.
  - destruct (String.eqb_spec (code r0) c) as [Heq | Hne].
    + exists r0. auto.
    + destruct H as [H | H]; [contradiction|].
      destruct (IH H) as [r [Hf [Hin Hc]]]. exists r. auto.
Qed.

Lemma find_code_none (df : DataFrame) (c : string) :
  ~ In c (codes df) -> find (fun r => (code r =? c)%string) df = None.
Proof.
  induction df as [|r0 df IH]; simpl; intros H.
  - reflexivity.
  - destruct (String.eqb_spec (code r0) c) as [Heq | Hne].
    + exfalso. apply H. now left.
    + apply IH. intros Hin. apply H. now right.
Qed.

Lemma loc_present (df : DataFrame) (c : string) (r : CountryRecord) :
  find (fun r => (code r =? c)%string) df = Some r ->
  loc df c = Return (latitude r, longitude r).
Proof. intros H. unfold loc. now rewrite H. Qed.

(** [clean_codes] touches the code column only, and no letter case. *)
Lemma codes_clean_codes (raw : DataFrame) :
  codes (clean_codes raw) = map clean_code (codes raw).
Proof.
  unfold codes, clean_codes. rewrite !map_map. reflexivity.
Qed.

(** ** The three branches of [compute_distance] *)

Lemma compute_distance_eq_branch (df : DataFrame) (iso1 iso2 : string) :
  upper iso1 = upper iso2 ->
  compute_distance df iso1 iso2 = Return (VStr msg_equal).
Proof.
  intros H. unfold compute_distance. rewrite H.
  now rewrite String.eqb_refl.
Qed.

Lemma compute_distance_missing_branch (df : DataFrame) (iso1 iso2 : string) :
  upper iso1 <> upper iso2 ->
  ~ In (upper iso1) (codes df) \/ ~ In (upper iso2) (codes df) ->
  compute_distance df iso1 iso2
  = Return (VStr (msg_missing (upper iso1) (upper iso2))).
Proof.
  intros Hne Hmiss. unfold compute_distance.
  apply String.eqb_neq in Hne. rewrite Hne.
  destruct Hmiss as [H | H]; apply isin_not_In in H; rewrite H.
  - reflexivity.
  - now rewrite orb_true_r.
Qed.

Lemma compute_distance_found_branch (df : DataFrame) (iso1 iso2 : string) :
  upper iso1 <> upper iso2 ->
  In (upper iso1) (codes df) -> In (upper iso2) (codes df) ->
  exists r1 r2,
    find (fun r => (code r =? upper iso1)%string) df = Some r1 /\
    find (fun r => (code r =? upper iso2)%string) df = Some r2 /\
    compute_distance df iso1 iso2
    = (d <- haversine (latitude r1) (longitude r1)
                      (latitude r2) (longitude r2) ;;
       Return (VFloat d)).
Proof.
  intros Hne H1 H2.
  destruct (find_code_some df _ H1) as [r1 [Hf1 _]].
  destruct (find_code_some df _ H2) as [r2 [Hf2 _]].
  exists r1, r2. repeat split; try assumption.
  unfold compute_distance.
  apply String.eqb_neq in Hne. rewrite Hne.
  apply isin_In in H1. apply isin_In in H2. rewrite H1, H2. simpl.
  rewrite (loc_present _ _ Hf1). simpl.
  rewrite (loc_present _ _ Hf2). simpl.
  reflexivity.
Qed.

Lemma msg_missing_not_equal (iso1 iso2 : string) :
  msg_missing iso1 iso2 <> msg_equal.
Proof.
  intros H. apply (f_equal String.length) in H.
  unfold msg_missing, msg_equal in H.
  rewrite !length_append in H. simpl in H. lia.
Qed.

(** ** The haversine formula *)

Local Open Scope R_scope.

Lemma radians_opp (x : R) : radians (- x) = - radians x.
Proof. unfold radians. lra. Qed.

Lemma hav_a_swap (lat1 lon1 lat2 lon2 : R) :
  hav_a lat1 lon1 lat2 lon2 = hav_a lat2 lon2 lat1 lon1.
Proof.
  unfold hav_a.
  replace (lat1 - lat2) with (- (lat2 - lat1)) by lra.
  replace (lon1 - lon2) with (- (lon2 - lon1)) by lra.
  rewrite !radians_opp.
  replace (- radians (lat2 - lat1) / 2) with (- (radians (lat2 - lat1) / 2))
    by lra.
  replace (- radians (lon2 - lon1) / 2) with (- (radians (lon2 - lon1) / 2))
    by lra.
  rewrite !sin_neg. ring.
Qed.

Lemma haversine_swap (lat1 lon1 lat2 lon2 : R) :
  haversine lat1 lon1 lat2 lon2 = haversine lat2 lon2 lat1 lon1.
Proof.
  unfold haversine. now rewrite hav_a_swap.
Qed.

(** Inside its domain [haversine] returns the closed formula. *)
Lemma haversine_in_domain (lat1 lon1 lat2 lon2 : R) :
  0 <= hav_a lat1 lon1 lat2 lon2 <= 1 ->
  haversine lat1 lon1 lat2 lon2
  = Return (6371 * (2 * asin (sqrt (hav_a lat1 lon1 lat2 lon2)))).
Proof.
  intros [H0 H1]. unfold haversine, math_sqrt, math_asin.
  destruct (Rlt_dec _ 0) as [Hneg | _]; [lra|]. cbn [bind].
  pose proof (sqrt_pos (hav_a lat1 lon1 lat2 lon2)) as Hs0.
  assert (Hs1 : sqrt (hav_a lat1 lon1 lat2 lon2) <= 1).
  { rewrite <- sqrt_1. apply sqrt_le_1_alt. assumption. }
  destruct (Rlt_dec _ (-1)) as [Hlo | _]; [lra|].
  destruct (Rlt_dec 1 _) as [Hhi | _]; [lra|].
  reflexivity.
Qed.

(** The sum of the two latitude terms is a squared cosine. *)
Lemma half_angle_identity (p1 p2 : R) :
  sin ((p2 - p1) / 2) ^ 2 + cos p1 * cos p2 = cos ((p1 + p2) / 2) ^ 2.
Proof.
  set (u := (p2 - p1) / 2). set (v := (p1 + p2) / 2).
  replace p1 with (v - u) by (unfold u, v; lra).
  replace p2 with (v + u) at 1 by (unfold u, v; lra).
  rewrite cos_minus, cos_plus.
  pose proof (sin2_cos2 u) as Hu. pose proof (sin2_cos2 v) as Hv.
  unfold Rsqr in Hu, Hv.
  replace (sin u ^ 2) with (sin u * sin u * (sin v * sin v + cos v * cos v))
    by (rewrite Hv; ring).
  replace (cos v ^ 2) with (cos v * cos v * (sin u * sin u + cos u * cos u))
    by (rewrite Hu; ring).
  ring.
Qed.


Lemma hav_a_quarter : hav_a 0 0 0 90 = / 2.
Proof.
  unfold hav_a, radians.
  replace ((0 - 0) * (PI / 180) / 2) with 0 by lra.
  replace (0 * (PI / 180)) with 0 by lra.
  replace ((90 - 0) * (PI / 180) / 2) with (PI / 4) by lra.
  rewrite sin_0, cos_0, sin_PI4.
  pose proof sqrt2_neq_0 as Hs.
  assert (Hsq : sqrt 2 * sqrt 2 = 2) by (apply sqrt_def; lra).
  field_simplify; [|assumption].
  replace (sqrt 2 ^ 2) with 2 by (simpl; lra).
  lra.
Qed.

(** ** The claims about [code_geo.py] *)

(** C1 (as amended).  When the two upper-cased codes differ and at least
    one of them is absent from the table, [compute_distance] does not
    raise: it returns the message [<ISO1> or <ISO2> doesn't exist] built
    from the two upper-cased codes.  The message is neither the equal
    message nor a number, and it names both codes whichever of them is
    absent: it is the same for every table that lacks one of the two. *)
Theorem compute_distance_not_found
    (df : DataFrame) (iso1 iso2 : string) :
  upper iso1 <> upper iso2 ->
  ~ In (upper iso1) (codes df) \/ ~ In (upper iso2) (codes df) ->
  compute_distance df iso1 iso2
  = Return (VStr (upper iso1 ++ " or " ++ upper iso2 ++ " doesn't exist"))
  /\ compute_distance df iso1 iso2 <> Return (VStr msg_equal)
  /\ (forall d, compute_distance df iso1 iso2 <> Return (VFloat d))
  /\ (forall e, compute_distance df iso1 iso2 <> Raise e)
  /\ (forall df',
        ~ In (upper iso1) (codes df') \/ ~ In (upper iso2) (codes df') ->
        compute_distance df' iso1 iso2 = compute_distance df iso1 iso2).
Proof.
  intros Hne Hmiss.
  pose proof (compute_distance_missing_branch df iso1 iso2 Hne Hmiss) as E.
  fold (msg_missing (upper iso1) (upper iso2)).
  rewrite E. repeat split.
  - intros H. injection H as H. now apply msg_missing_not_equal in H.
  - intros d H. discriminate H.
  - intros e H. discriminate H.
  - intros df' Hmiss'.
    apply (compute_distance_missing_branch df' iso1 iso2 Hne Hmiss').
Qed.

Lemma compute_distance_not_found_witness :
  compute_distance table_can "can" "zzz"
  = Return (VStr "CAN or ZZZ doesn't exist").
Proof.
  refine (proj1 (@compute_distance_not_found table_can "can" "zzz" _ _)).
  - discriminate.
  - right. simpl. intros [H | []]. discriminate H.
Defined.

(** C1 (as stated) fails: no reading of the result tells which of the
    two codes failed the lookup.  With [CAN] in the table and with the
    empty table, [compute_distance("CAN", "ZZZ")] is the same message,
    while the codes that fail are [ZZZ] alone in the first case and both
    in the second. *)
Lemma not_found_does_not_identify :
  ~ exists failed : result value -> list string,
      forall (df : DataFrame) (iso1 iso2 : string),
        upper iso1 <> upper iso2 ->
        ~ In (upper iso1) (codes df) \/ ~ In (upper iso2) (codes df) ->
        failed (compute_distance df iso1 iso2)
        = filter (fun c => negb (isin c (codes df)))
                 [upper iso1; upper iso2].
Proof.
  intros [failed H].
  assert (H1 : failed (compute_distance table_can "CAN" "ZZZ") = ["ZZZ"%string]).
  { rewrite H; [reflexivity | discriminate |].
    right. simpl. intros [E | []]. discriminate E. }
  assert (H2 : failed (compute_distance [] "CAN" "ZZZ")
               = ["CAN"%string; "ZZZ"%string]).
  { rewrite H; [reflexivity | discriminate |]. left. simpl. tauto. }
  assert (E : compute_distance table_can "CAN" "ZZZ"
              = compute_distance [] "CAN" "ZZZ") by reflexivity.
  rewrite E in H1. rewrite H1 in H2. discriminate H2.
Qed.

(** C6.  [haversine(0, 0, 0, 90)] is a quarter of the circumference,
    [pi/2 * 6371.0], in exact real arithmetic. *)
Theorem haversine_quarter_equator :
  haversine 0 0 0 90 = Return (PI / 2 * 6371).
Proof.
  rewrite haversine_in_domain.
  - rewrite hav_a_quarter, sqrt_inv, asin_inv_sqrt2. f_equal. lra.
  - rewrite hav_a_quarter. lra.
Qed.

(** C2 (as stated) fails: the loader does not upper-case the codes of
    the table.  A table whose first code is [usa] holds that code, yet
    the lookup of [usa] (upper-cased to [USA]) selects no row and
    [compute_distance] answers that the code does not exist. *)
Lemma lower_case_code_not_resolved :
  In "usa"%string (codes table_lower)
  /\ loc table_lower (upper "usa") = Raise IndexError
  /\ compute_distance table_lower "usa" "CAN"
     = Return (VStr "USA or CAN doesn't exist").
Proof.
  split; [|split].
  - left. reflexivity.
  - reflexivity.
  - reflexivity.
Qed.

(** A code that the table stores with a lower-case letter is the
    upper-casing of no argument, so no lookup selects its row. *)
Lemma lower_case_code_unreachable (df : DataFrame) (c x : string) :
  upper c <> c ->
  forall r, code r = c ->
            find (fun r => (code r =? upper x)%string) df <> Some r.
Proof.
  intros Hc r Hcr Hf. apply find_some in Hf. destruct Hf as [_ Hf].
  apply String.eqb_eq in Hf. apply Hc.
  rewrite <- Hcr, Hf. apply upper_idem.
Qed.

(** C2 (as amended).  The comparison ignores the letter case of the
    arguments, which [compute_distance] upper-cases; the codes of the
    table are compared as they are stored.  For every code that the table
    stores in upper case, [compute_distance] called with that code in any
    letter case resolves it to the same record, the first row with that
    code, and answers as it does for the stored spelling. *)
Theorem upper_case_code_resolved (df : DataFrame) (c x : string) :
  In c (codes df) -> upper c = c -> upper x = upper c ->
  exists r,
    find (fun r => (code r =? c)%string) df = Some r
    /\ In r df /\ code r = c
    /\ loc df (upper x) = Return (latitude r, longitude r)
    /\ forall z, compute_distance df x z = compute_distance df c z
                 /\ compute_distance df z x = compute_distance df z c.
Proof.
  intros Hin Hc Hx.
  destruct (find_code_some df c Hin) as [r [Hf [Hr Hcr]]].
  exists r. repeat split; try assumption.
  - rewrite Hx, Hc. now apply loc_present.
  - unfold compute_distance. now rewrite Hx.
  - unfold compute_distance. now rewrite Hx.
Qed.

Lemma upper_case_code_resolved_witness :
  exists r,
    find (fun r => (code r =? "USA")%string) table_upper = Some r
    /\ loc table_upper (upper "uSa") = Return (latitude r, longitude r).
Proof.
  destruct (@upper_case_code_resolved table_upper "USA" "uSa"
              (or_introl eq_refl) eq_refl eq_refl)
    as [r [Hf [_ [_ [Hl _]]]]].
  exists r. split; assumption.
Defined.

(** C3 (as stated) fails: the table holds [usa] and [CAN], two different
    codes, and the two calls return different values.  The arguments are
    upper-cased, [USA] is not in the table, and the not-found message names
    the codes in the order of the call. *)
Lemma lower_case_code_not_symmetric :
  In "usa"%string (codes table_lower)
  /\ In "CAN"%string (codes table_lower)
  /\ "usa"%string <> "CAN"%string
  /\ compute_distance table_lower "usa" "CAN"
     = Return (VStr "USA or CAN doesn't exist")
  /\ compute_distance table_lower "CAN" "usa"
     = Return (VStr "CAN or USA doesn't exist")
  /\ compute_distance table_lower "usa" "CAN"
     <> compute_distance table_lower "CAN" "usa".
Proof.
  split; [left; reflexivity|].
  split; [right; left; reflexivity|].
  split; [discriminate|].
  split; [reflexivity|].
  split; [reflexivity|].
  discriminate.
Qed.

(** C3 (as amended).  For two codes whose upper-cased forms are in the
    table, as is every code that the table stores in upper case,
    [compute_distance(A, B)] and [compute_distance(B, A)] are the same
    value.  When the upper-cased forms differ, each call is [haversine] at
    the two centroids, and [haversine] takes the same value when its two
    points are swapped. *)
Theorem compute_distance_symmetric (df : DataFrame) (A B : string) :
  In (upper A) (codes df) -> In (upper B) (codes df) ->
  compute_distance df A B = compute_distance df B A
  /\ (upper A <> upper B ->
      exists rA rB,
        find (fun r => (code r =? upper A)%string) df = Some rA /\
        find (fun r => (code r =? upper B)%string) df = Some rB /\
        compute_distance df A B
        = (d <- haversine (latitude rA) (longitude rA)
                          (latitude rB) (longitude rB) ;;
           Return (VFloat d)))
  /\ (forall lat1 lon1 lat2 lon2,
        haversine lat1 lon1 lat2 lon2 = haversine lat2 lon2 lat1 lon1).
Proof.
  intros HA HB.
  assert (Hfound : upper A <> upper B ->
            exists rA rB,
              find (fun r => (code r =? upper A)%string) df = Some rA /\
              find (fun r => (code r =? upper B)%string) df = Some rB /\
              compute_distance df A B
              = (d <- haversine (latitude rA) (longitude rA)
                                (latitude rB) (longitude rB) ;;
                 Return (VFloat d))
              /\ compute_distance df B A
                 = (d <- haversine (latitude rB) (longitude rB)
                                   (latitude rA) (longitude rA) ;;
                    Return (VFloat d))).
  { intros Hne.
    assert (Hne' : upper B <> upper A) by congruence.
    destruct (compute_distance_found_branch df A B Hne HA HB)
      as [rA [rB [HfA [HfB E1]]]].
    destruct (compute_distance_found_branch df B A Hne' HB HA)
      as [rB' [rA' [HfB' [HfA' E2]]]].
    assert (rA' = rA) by congruence. assert (rB' = rB) by congruence.
    subst rA' rB'. exists rA, rB. auto. }
  split; [|split].
  - destruct (string_dec (upper A) (upper B)) as [E | Hne].
    + rewrite (compute_distance_eq_branch df A B E).
      symmetry. apply compute_distance_eq_branch. now symmetry.
    + destruct (Hfound Hne) as [rA [rB [_ [_ [E1 E2]]]]].
      rewrite E1, E2. now rewrite haversine_swap.
  - intros Hne. destruct (Hfound Hne) as [rA [rB [HfA [HfB [E1 _]]]]].
    exists rA, rB. auto.
  - apply haversine_swap.
Qed.

Lemma compute_distance_symmetric_witness :
  compute_distance table_upper "usa" "CAN"
  = compute_distance table_upper "CAN" "usa".
Proof.
  refine (proj1 (@compute_distance_symmetric table_upper "usa" "CAN" _ _)).
  - left. reflexivity.
  - right. left. reflexivity.
Defined.

(** C8.  When the two codes are the same after upper-casing, whatever
    their letter case, [compute_distance] returns the message
    [They are equal]: a string, not a distance and not the number 0. *)
Theorem compute_distance_equal_codes
    (df : DataFrame) (iso1 iso2 : string) :
  upper iso1 = upper iso2 ->
  compute_distance df iso1 iso2 = Return (VStr "They are equal")
  /\ (forall d, compute_distance df iso1 iso2 <> Return (VFloat d))
  /\ compute_distance df iso1 iso2 <> Return (VFloat 0).
Proof.
  intros H. rewrite (compute_distance_eq_branch df iso1 iso2 H).
  repeat split; intros; discriminate.
Qed.

Lemma compute_distance_equal_codes_witness :
  compute_distance table_upper "usa" "UsA" = Return (VStr "They are equal").
Proof.
  exact (proj1 (@compute_distance_equal_codes table_upper "usa" "UsA"
                  eq_refl)).
Defined.

(** C9.  The equality test comes before the table lookup: for every
    code [X], in the table or not, [compute_distance(X, X)] is the equal
    message and never the not-found message. *)
Theorem equal_check_before_lookup (df : DataFrame) (X : string) :
  compute_distance df X X = Return (VStr "They are equal")
  /\ (forall iso1 iso2,
        compute_distance df X X <> Return (VStr (msg_missing iso1 iso2))).
Proof.
  rewrite (compute_distance_eq_branch df X X eq_refl). split.
  - reflexivity.
  - intros iso1 iso2 H. injection H as H. symmetry in H.
    now apply msg_missing_not_equal in H.
Qed.

End GeoSpec.

(* ================================================================== *)
(** * Facts about counters *)

Section CounterFacts.

Variable K : Type.
Variable K_eqb : K -> K -> bool.
Hypothesis K_eqb_eq : forall x y, K_eqb x y = true <-> x = y.

Local Open Scope Z_scope.

Local Lemma K_eqb_refl (x : K) : K_eqb x x = true.
Proof. now apply K_eqb_eq. Qed.

(** Reading after one increment. *)
Lemma get_incr (counter : Counter K) (k k' : K) :
  get K_eqb (incr K_eqb counter k) k'
  = get K_eqb counter k' + (if K_eqb k k' then 1 else 0).
Proof.
  induction counter as [|[k0 n] rest IH]; simpl.
  - destruct (K_eqb k k'); lia.
  - destruct (K_eqb k0 k) eqn:E0; simpl.
    + apply K_eqb_eq in E0. subst k0.
      destruct (K_eqb k k'); lia.
    + destruct (K_eqb k0 k') eqn:E1.
      * apply K_eqb_eq in E1. subst k0.
        destruct (K_eqb k k') eqn:E2; [|lia].
        apply K_eqb_eq in E2. subst k'.
        rewrite K_eqb_refl in E0. discriminate E0.
      * apply IH.
Qed.

Lemma keys_incr (counter : Counter K) (k k' : K) :
  In k' (keys (incr K_eqb counter k)) <-> k' = k \/ In k' (keys counter).
Proof.
  unfold keys. induction counter as [|[k0 n] rest IH]; simpl.
  - intuition.
  - destruct (K_eqb k0 k) eqn:E0; simpl.
    + apply K_eqb_eq in E0. subst k0. intuition.
    + rewrite IH. intuition.
Qed.

Lemma get_fold_incr (l : list K) (counter : Counter K) (k : K) :
  get K_eqb (fold_left (incr K_eqb) l counter) k
  = get K_eqb counter k + occurrences K_eqb l k.
Proof.
  revert counter. induction l as [|k0 rest IH]; intros counter; simpl.
  - lia.
  - rewrite IH, get_incr. lia.
Qed.

Lemma keys_fold_incr (l : list K) (counter : Counter K) (k : K) :
  In k (keys (fold_left (incr K_eqb) l counter))
  <-> In k (keys counter) \/ In k l.
Proof.
  revert counter. induction l as [|k0 rest IH]; intros counter; simpl.
  - intuition.
  - rewrite IH, keys_incr. intuition.
Qed.

Lemma occurrences_not_In (l : list K) (k : K) :
  ~ In k l -> occurrences K_eqb l k = 0.
Proof.
  induction l as [|k0 rest IH]; simpl; intros H.
  - reflexivity.
  - destruct (K_eqb k0 k) eqn:E.
    + apply K_eqb_eq in E. exfalso. apply H. now left.
    + rewrite IH; [lia | intuition].
Qed.

Lemma occurrences_NoDup (l : list K) (k : K) :
  NoDup l -> In k l -> occurrences K_eqb l k = 1.
Proof.
  induction 1 as [|k0 rest Hnin Hnd IH]; simpl; intros Hin.
  - contradiction.
  - destruct (K_eqb k0 k) eqn:E.
    + apply K_eqb_eq in E. subst k0.
      rewrite occurrences_not_In; [lia | assumption].
    + destruct Hin as [Hin | Hin].
      * subst k0. rewrite K_eqb_refl in E. discriminate E.
      * rewrite IH; [lia | assumption].
Qed.

(** A key that was never inserted reads as 0. *)
Lemma get_not_key (counter : Counter K) (k : K) :
  ~ In k (keys counter) -> get K_eqb counter k = 0.
Proof.
  unfold keys. induction counter as [|[k0 n] rest IH]; simpl; intros H.
  - reflexivity.
  - destruct (K_eqb k0 k) eqn:E.
    + apply K_eqb_eq in E. exfalso. apply H. now left.
    + apply IH. intuition.
Qed.

End CounterFacts.

(* ================================================================== *)
(** * The order on strings *)

Module StrOrder.

Import Str.

Lemma ascii_compare_refl (c : ascii) : Ascii.compare c c = Eq.
Proof. unfold Ascii.compare. apply N.compare_refl. Qed.

Lemma compare_refl (s : string) : String.compare s s = Eq.
Proof.
  induction s as [|c s IH]; simpl.
  - reflexivity.
  - now rewrite ascii_compare_refl.
Qed.

Lemma ascii_compare_lt_trans (a b c : ascii) :
  Ascii.compare a b = Lt -> Ascii.compare b c = Lt -> Ascii.compare a c = Lt.
Proof.
  unfold Ascii.compare. rewrite !N.compare_lt_iff. lia.
Qed.

Lemma compare_lt_trans (s t u : string) :
  String.compare s t = Lt -> String.compare t u = Lt ->
  String.compare s u = Lt.
Proof.
  revert t u. induction s as [|a s IH]; intros [|b t] [|c u]; simpl;
    try congruence.
  destruct (Ascii.compare a b) eqn:Eab; try discriminate;
    destruct (Ascii.compare b c) eqn:Ebc; try discriminate; intros H1 H2.
  - apply Ascii.compare_eq_iff in Eab. apply Ascii.compare_eq_iff in Ebc.
    subst. rewrite ascii_compare_refl. eapply IH; eassumption.
  - apply Ascii.compare_eq_iff in Eab. subst. now rewrite Ebc.
  - apply Ascii.compare_eq_iff in Ebc. subst. now rewrite Eab.
  - now rewrite (ascii_compare_lt_trans _ _ _ Eab Ebc).
Qed.

Lemma lt_irrefl (a : string) : ~ lt a a.
Proof. unfold lt, String.ltb. now rewrite compare_refl. Qed.

Lemma lt_trans (a b c : string) : lt a b -> lt b c -> lt a c.
Proof.
  unfold lt, String.ltb. intros H1 H2.
  destruct (String.compare a b) eqn:E1; try discriminate.
  destruct (String.compare b c) eqn:E2; try discriminate.
  now rewrite (compare_lt_trans _ _ _ E1 E2).
Qed.

Lemma lt_neq (a b : string) : lt a b -> a <> b.
Proof. intros H E. subst. now apply lt_irrefl in H. Qed.

(** The two outcomes of the test that [insert] makes. *)
Lemma leb_false_lt (x y : string) : String.leb x y = false -> lt y x.
Proof.
  unfold lt, String.leb, String.ltb. rewrite (String.compare_antisym x y).
  destruct (String.compare y x); simpl; congruence.
Qed.

Lemma leb_true_lt (x y : string) : String.leb x y = true -> x <> y -> lt x y.
Proof.
  unfold lt, String.leb, String.ltb. intros H Hne.
  destruct (String.compare x y) eqn:E; try congruence.
  apply String.compare_eq_iff in E. contradiction.
Qed.

End StrOrder.

(* ================================================================== *)
(** * The co-mention counts and the subject breakdown *)

Module PlotSpec.

Import Str StrFacts StrOrder Plot.

(** ** [sorted(set(lst))] *)

Lemma In_to_set (lst : list string) (x : string) :
  In x (to_set lst) <-> In x lst.
Proof. apply nodup_In. Qed.

Lemma NoDup_to_set (lst : list string) : NoDup (to_set lst).
Proof. apply NoDup_nodup. Qed.

Lemma In_insert (x y : string) (l : list string) :
  In y (insert x l) <-> y = x \/ In y l.
Proof.
  induction l as [|z l IH]; simpl.
  - intuition.
  - destruct (String.leb x z); simpl; [|rewrite IH]; intuition.
Qed.

Lemma In_sorted (xs : list string) (x : string) :
  In x (sorted xs) <-> In x xs.
Proof.
  unfold sorted. induction xs as [|y xs IH]; simpl.
  - tauto.
  - rewrite In_insert, IH. intuition.
Qed.

Lemma insert_increasing (x : string) (l : list string) :
  StronglySorted lt l -> ~ In x l -> StronglySorted lt (insert x l).
Proof.
  induction 1 as [|z l Hs IH Hz]; simpl; intros Hnin.
  - constructor; constructor.
  - destruct (String.leb x z) eqn:E.
    + assert (Hxz : lt x z) by (apply leb_true_lt; intuition).
      constructor.
      * constructor; assumption.
      * constructor; [assumption|].
        eapply Forall_impl; [|exact Hz].
        intros w Hw. eapply lt_trans; eassumption.
    + apply leb_false_lt in E. constructor.
      * apply IH. intuition.
      * apply Forall_forall. intros w Hw. apply In_insert in Hw.
        destruct Hw as [-> | Hw]; [assumption|].
        rewrite Forall_forall in Hz. now apply Hz.
Qed.

(** Sorting distinct strings gives a strictly increasing list. *)
Lemma sorted_increasing (xs : list string) :
  NoDup xs -> StronglySorted lt (sorted xs).
Proof.
  unfold sorted. induction 1 as [|x xs Hnin Hnd IH]; simpl.
  - constructor.
  - apply insert_increasing; [assumption|].
    intros H. apply Hnin. now apply (In_sorted xs x).
Qed.

Lemma increasing_NoDup (l : list string) : StronglySorted lt l -> NoDup l.
Proof.
  induction 1 as [|z l Hs IH Hz]; constructor; [|assumption].
  intros Hin. rewrite Forall_forall in Hz.
  now apply (lt_irrefl (Hz z Hin)).
Qed.

(** ** [combinations(uniq, 2)] *)

Lemma In_combinations2 (A : Type) (l : list A) (a b : A) :
  In (a, b) (combinations2 l) -> In a l /\ In b l.
Proof.
  induction l as [|x l IH]; simpl; [tauto|].
  rewrite in_app_iff, in_map_iff. intros [[y [E Hy]] | H].
  - injection E as -> ->. auto.
  - destruct (IH H). auto.
Qed.

Lemma NoDup_combinations2 (A : Type) (l : list A) :
  NoDup l -> NoDup (combinations2 l).
Proof.
  induction 1 as [|x l Hnin Hnd IH]; simpl.
  - constructor.
  - apply NoDup_app.
    + apply NoDup_map_inv with (f := snd).
      rewrite map_map. simpl. now rewrite map_id.
    + assumption.
    + intros [a b] H1 H2. apply in_map_iff in H1.
      destruct H1 as [y [E _]]. injection E as -> ->.
      apply In_combinations2 in H2. tauto.
Qed.

(** From a strictly increasing list the pairs are those in canonical
    order. *)
Lemma In_combinations2_increasing (l : list string) (a b : string) :
  StronglySorted lt l ->
  (In (a, b) (combinations2 l) <-> In a l /\ In b l /\ lt a b).
Proof.
  induction 1 as [|x l Hs IH Hx]; simpl; [tauto|].
  rewrite Forall_forall in Hx.
  rewrite in_app_iff, in_map_iff, IH. split.
  - intros [[y [E Hy]] | [Ha [Hb Hab]]].
    + injection E as -> ->. auto.
    + auto.
  - intros [[-> | Ha] [[-> | Hb] Hab]].
    + now apply lt_irrefl in Hab.
    + left. exists b. auto.
    + exfalso. apply (lt_irrefl (lt_trans Hab (Hx a Ha))).
    + right. auto.
Qed.

(** ** The counting loop *)

Local Open Scope Z_scope.

Lemma Pair_eqb_eq (p q : Pair) : Pair_eqb p q = true <-> p = q.
Proof.
  destruct p as [a b], q as [c d]. unfold Pair_eqb. simpl.
  rewrite andb_true_iff, !String.eqb_eq. split.
  - intros [-> ->]. reflexivity.
  - intros E. injection E as -> ->. auto.
Qed.

(** The pairs that one record adds. *)
Lemma In_pairs_of_record (lst : list string) (a b : string) :
  In (a, b) (combinations2 (sorted (to_set lst)))
  <-> In a lst /\ In b lst /\ lt a b.
Proof.
  rewrite In_combinations2_increasing
    by (apply sorted_increasing, NoDup_to_set).
  rewrite !In_sorted, !In_to_set. reflexivity.
Qed.

Lemma NoDup_pairs_of_record (lst : list string) :
  NoDup (combinations2 (sorted (to_set lst))).
Proof.
  apply NoDup_combinations2, increasing_NoDup, sorted_increasing,
    NoDup_to_set.
Qed.

(** The test that decides whether a record adds the pair [(a, b)]. *)
Lemma adds_pair_iff (lst : list string) (a b : string) :
  isin a lst && isin b lst && String.ltb a b = true
  <-> In a lst /\ In b lst /\ lt a b.
Proof.
  rewrite !andb_true_iff, !isin_In. unfold lt. tauto.
Qed.

Lemma get_count_record (counter : Counter Pair) (lst : list string)
    (a b : string) :
  get Pair_eqb (count_record counter lst) (a, b)
  = get Pair_eqb counter (a, b)
    + (if isin a lst && isin b lst && String.ltb a b then 1 else 0).
Proof.
  unfold count_record. rewrite (@get_fold_incr _ _ Pair_eqb_eq). f_equal.
  destruct (isin a lst && isin b lst && String.ltb a b) eqn:E.
  - apply (@occurrences_NoDup _ _ Pair_eqb_eq).
    + apply NoDup_pairs_of_record.
    + apply In_pairs_of_record, adds_pair_iff, E.
  - apply (@occurrences_not_In _ _ Pair_eqb_eq).
    intros H. apply In_pairs_of_record, adds_pair_iff in H. congruence.
Qed.

Lemma keys_count_record (counter : Counter Pair) (lst : list string)
    (p : Pair) :
  In p (keys (count_record counter lst))
  <-> In p (keys counter)
      \/ (In (fst p) lst /\ In (snd p) lst /\ lt (fst p) (snd p)).
Proof.
  unfold count_record. rewrite (@keys_fold_incr _ _ Pair_eqb_eq).
  destruct p as [a b]. rewrite In_pairs_of_record. reflexivity.
Qed.

(** A key in canonical order: first code strictly before the second. *)
Lemma canonical_keys_from (column : list (list string))
    (counter : Counter Pair) :
  Forall (fun p => lt (fst p) (snd p)) (keys counter) ->
  Forall (fun p => lt (fst p) (snd p))
         (keys (fold_left count_record column counter)).
Proof.
  revert counter. induction column as [|lst column IH]; intros counter H.
  - exact H.
  - simpl. apply IH. apply Forall_forall. intros p Hp.
    apply keys_count_record in Hp. destruct Hp as [Hp | [_ [_ Hp]]].
    + rewrite Forall_forall in H. now apply H.
    + exact Hp.
Qed.

(** The count of a pair is the number of records that mention both of its
    codes, when the pair is in canonical order, and 0 otherwise. *)
Lemma get_count_from (df : DataFrame) (counter : Counter Pair)
    (a b : string) :
  get Pair_eqb
      (fold_left count_record (dropna (map countries_mentioned_list df))
                 counter) (a, b)
  = get Pair_eqb counter (a, b)
    + (if String.ltb a b
       then Z.of_nat (List.length (filter (mentions_both a b) df))
       else 0).
Proof.
  revert counter. induction df as [|r df IH]; intros counter; simpl.
  - destruct (String.ltb a b); simpl; lia.
  - unfold mentions_both at 1.
    destruct (countries_mentioned_list r) as [lst|]; simpl.
    + rewrite IH, get_count_record.
      destruct (String.ltb a b); rewrite ?andb_false_r; [|lia].
      rewrite andb_true_r.
      destruct (isin a lst && isin b lst); simpl List.length; lia.
    + apply IH.
Qed.

Lemma dropna_app (A : Type) (c1 c2 : list (option A)) :
  dropna (c1 ++ c2) = (dropna c1 ++ dropna c2)%list.
Proof.
  induction c1 as [|[x|] c1 IH]; simpl; [reflexivity | now rewrite IH | exact IH].
Qed.

Lemma count_co_mentions_skip (df1 df2 : DataFrame) (r : MentionRecord) :
  countries_mentioned_list r = None
  \/ countries_mentioned_list r = Some [] ->
  count_co_mentions (df1 ++ r :: df2) = count_co_mentions (df1 ++ df2).
Proof.
  intros H. unfold count_co_mentions.
  rewrite !map_app, !dropna_app, !fold_left_app. simpl.
  destruct H as [-> | ->]; reflexivity.
Qed.

(** ** The subject counter *)

Lemma is_empty_nil (K : Type) (counter : Counter K) :
  is_empty counter = true <-> counter = [].
Proof. destruct counter; simpl; split; congruence. Qed.

Lemma is_empty_incr (K : Type) (K_eqb : K -> K -> bool)
    (counter : Counter K) (k : K) :
  is_empty (incr K_eqb counter k) = false.
Proof.
  destruct counter as [|[k0 n] rest]; simpl; [reflexivity|].
  destruct (K_eqb k0 k); reflexivity.
Qed.

Lemma blank_iff (subj : string) :
  blank subj = true <-> strip subj = EmptyString.
Proof.
  unfold blank. destruct (strip subj); simpl; split; congruence.
Qed.

Lemma is_empty_count_entry (counter : Counter string) (entry : string) :
  is_empty (count_entry counter entry)
  = is_empty counter && forallb blank (split "," entry).
Proof.
  unfold count_entry. generalize (split "," entry) as pieces.
  intros pieces. revert counter.
  induction pieces as [|subj pieces IH]; intros counter; simpl.
  - now rewrite andb_true_r.
  - rewrite IH. unfold blank at 2.
    destruct (truthy (strip subj)); simpl.
    + now rewrite is_empty_incr, andb_false_r.
    + reflexivity.
Qed.

Lemma is_empty_count_from (entries : list string) (counter : Counter string) :
  is_empty (fold_left count_entry entries counter)
  = is_empty counter
    && forallb (fun entry => forallb blank (split "," entry)) entries.
Proof.
  revert counter. induction entries as [|entry entries IH];
    intros counter; simpl.
  - now rewrite andb_true_r.
  - rewrite IH, is_empty_count_entry. now rewrite andb_assoc.
Qed.

(** The counter stays empty exactly when no selected record gives a
    label. *)
Lemma count_subjects_empty_iff (df_pair : DataFrame) :
  count_subjects df_pair = [] <-> (forall r, In r df_pair -> no_label r).
Proof.
  rewrite <- is_empty_nil. unfold count_subjects.
  rewrite is_empty_count_from. simpl.
  induction df_pair as [|r df_pair IH]; simpl.
  - split; [intros _ r [] | reflexivity].
  - unfold no_label in *.
    destruct (subjareas r) as [entry|] eqn:E; simpl.
    + rewrite andb_true_iff, IH, forallb_forall. split.
      * intros [H1 H2] r' [<- | Hr'].
        -- rewrite E. apply Forall_forall. intros subj Hs.
           now apply blank_iff, H1.
        -- now apply H2.
      * intros H. split.
        -- intros subj Hs. apply blank_iff.
           specialize (H r (or_introl eq_refl)). rewrite E in H.
           rewrite Forall_forall in H. now apply H.
        -- intros r' Hr'. apply H. now right.
    + rewrite IH. split.
      * intros H r' [<- | Hr']; [now rewrite E | now apply H].
      * intros H r' Hr'. apply H. now right.
Qed.

Lemma plot_pair_empty_frame (c1 c2 : string) (top_n : option Z) :
  plot_pair_mentions_by_subject [] (c1, c2) top_n = ([], Raise KeyError).
Proof. reflexivity. Qed.

Lemma plot_pair_empty_counter (df : DataFrame) (c1 c2 : string)
    (top_n : option Z) :
  df <> [] ->
  count_subjects (filter (mentions_both c1 c2) df) = [] ->
  plot_pair_mentions_by_subject df (c1, c2) top_n
  = ([print (msg_no_records c1 c2)], Return []).
Proof.
  intros Hdf H. destruct df as [|r df]; [congruence|].
  unfold plot_pair_mentions_by_subject. now rewrite H.
Qed.

(** With labels in the counter the function draws, or raises when [head]
    has left no row; its first call is [plt.figure]. *)
Lemma plot_pair_nonempty_counter (df : DataFrame) (c1 c2 : string)
    (top_n : option Z) :
  count_subjects (filter (mentions_both c1 c2) df) <> [] ->
  exists calls res,
    plot_pair_mentions_by_subject df (c1, c2) top_n
    = (plt_figure :: calls, res).
Proof.
  intros H. destruct df as [|r df]; [now contradiction H|].
  unfold plot_pair_mentions_by_subject.
  destruct (count_subjects (filter (mentions_both c1 c2) (r :: df)))
    as [|e rest]; [congruence|]. simpl is_empty. cbv iota.
  match goal with
  | |- context [match ?x with [] => _ | _ :: _ => _ end] => destruct x
  end; eauto.
Qed.

(** No record's list holds both codes: the mask selects nothing. *)
Lemma no_record_selected (df : DataFrame) (c1 c2 : string) :
  (forall r lst, In r df -> countries_mentioned_list r = Some lst ->
                 ~ (In c1 lst /\ In c2 lst))
  <-> filter (mentions_both c1 c2) df = [].
Proof.
  induction df as [|r df IH]; simpl.
  - split; [reflexivity | intros _ r lst []].
  - split.
    + intros H. assert (E : mentions_both c1 c2 r = false).
      { unfold mentions_both.
        destruct (countries_mentioned_list r) as [lst|] eqn:El;
          [|reflexivity].
        apply not_true_iff_false. rewrite andb_true_iff, !isin_In.
        now apply (H r lst (or_introl eq_refl)). }
      rewrite E. apply IH. intros r' lst Hr'. apply H. now right.
    + destruct (mentions_both c1 c2 r) eqn:E; [discriminate|].
      intros Hf r' lst [<- | Hr'] El.
      * unfold mentions_both in E. rewrite El in E.
        apply not_true_iff_false in E.
        now rewrite andb_true_iff, !isin_In in E.
      * revert El. now apply IH.
Qed.

(** ** The claims about [plot.py] *)

(** C4.  The counting loop of [plot_top_country_pairs] and
    [plot_country_network].  One record adds exactly 1 to the pair
    [(a, b)] when both codes are in its list and [a < b], however often
    they are repeated there, and adds nothing otherwise; so no pair gains
    more than 1 per record.  Every key of the final counter is in canonical
    order [a < b], hence no key is a self-pair and a self-pair counts 0.
    The count of a canonical pair is the number of records holding both
    codes.  A record whose list is missing or empty leaves every count as
    it is. *)
Theorem co_mentions_counted_once_per_record :
  (forall (counter : Counter Pair) (lst : list string) (a b : string),
     get Pair_eqb (count_record counter lst) (a, b)
     = get Pair_eqb counter (a, b)
       + (if isin a lst && isin b lst && String.ltb a b then 1 else 0))
  /\ (forall (counter : Counter Pair) (lst : list string) (p : Pair),
        get Pair_eqb (count_record counter lst) p
        <= get Pair_eqb counter p + 1)
  /\ (forall df : DataFrame,
        Forall (fun p => lt (fst p) (snd p) /\ fst p <> snd p)
               (keys (count_co_mentions df)))
  /\ (forall (df : DataFrame) (a : string),
        get Pair_eqb (count_co_mentions df) (a, a) = 0)
  /\ (forall (df : DataFrame) (a b : string),
        get Pair_eqb (count_co_mentions df) (a, b)
        = if String.ltb a b
          then Z.of_nat (List.length (filter (mentions_both a b) df))
          else 0)
  /\ (forall counter : Counter Pair, count_record counter [] = counter)
  /\ (forall (df1 df2 : DataFrame) (subj : option string),
        count_co_mentions (df1 ++ mkMention None subj :: df2)
        = count_co_mentions (df1 ++ df2)
        /\ count_co_mentions (df1 ++ mkMention (Some []) subj :: df2)
           = count_co_mentions (df1 ++ df2)).
Proof.
  assert (Hget : forall (df : DataFrame) (a b : string),
             get Pair_eqb (count_co_mentions df) (a, b)
             = if String.ltb a b
               then Z.of_nat (List.length (filter (mentions_both a b) df))
               else 0).
  { intros df a b. unfold count_co_mentions. rewrite get_count_from.
    reflexivity. }
  repeat split.
  - apply get_count_record.
  - intros counter lst [a b]. rewrite get_count_record.
    destruct (isin a lst && isin b lst && String.ltb a b); lia.
  - intros df. unfold count_co_mentions.
    eapply Forall_impl;
      [|apply canonical_keys_from; simpl; constructor].
    intros p Hp. split; [exact Hp | now apply lt_neq].
  - intros df a. rewrite Hget.
    destruct (String.ltb a a) eqn:E; [|reflexivity].
    now apply lt_irrefl in E.
  - exact Hget.
  - apply count_co_mentions_skip. now left.
  - apply count_co_mentions_skip. now right.
Qed.

(** The record [["USA", "USA", "CAN"]] adds one to [(CAN, USA)], not two,
    and creates no other key. *)
Lemma duplicated_code_counted_once :
  count_record [] ["USA"; "USA"; "CAN"]%string
  = [(("CAN", "USA")%string, 1)]
  /\ get Pair_eqb (count_record [] ["USA"; "USA"; "CAN"]%string)
         ("CAN", "USA")%string = 1.
Proof.
  split.
  - reflexivity.
  - rewrite (proj1 co_mentions_counted_once_per_record). reflexivity.
Defined.

(** C5.  No record's list holds both codes of the pair.  On a frame that
    has rows the function prints the diagnostic line, returns the empty
    series and makes no call that draws, as the claim says.  On a frame
    without rows, where no record holds both codes either, it raises
    [KeyError] instead. *)
Theorem no_matching_record_no_chart
    (df : DataFrame) (c1 c2 : string) (top_n : option Z) :
  (forall r lst, In r df -> countries_mentioned_list r = Some lst ->
                 ~ (In c1 lst /\ In c2 lst)) ->
  (df = [] ->
   plot_pair_mentions_by_subject df (c1, c2) top_n = ([], Raise KeyError))
  /\ (df <> [] ->
      plot_pair_mentions_by_subject df (c1, c2) top_n
      = ([print ("No records found mentioning both " ++ c1 ++ " and "
                  ++ c2 ++ ".")%string], Return [])
      /\ existsb renders
           (fst (plot_pair_mentions_by_subject df (c1, c2) top_n)) = false).
Proof.
  intros H. apply no_record_selected in H. split.
  - intros ->. apply plot_pair_empty_frame.
  - intros Hdf.
    assert (E : plot_pair_mentions_by_subject df (c1, c2) top_n
                = ([print (msg_no_records c1 c2)], Return [])).
    { apply plot_pair_empty_counter; [assumption | now rewrite H]. }
    rewrite E. split; reflexivity.
Qed.

Lemma no_matching_record_no_chart_witness :
  plot_pair_mentions_by_subject [] ("USA", "CAN")%string None
  = ([], Raise KeyError)
  /\ plot_pair_mentions_by_subject corpus_pairs ("USA", "BRA")%string (Some 5)
     = ([print "No records found mentioning both USA and BRA."], Return []).
Proof.
  split.
  - refine (proj1 (@no_matching_record_no_chart [] "USA" "CAN" None _)
                  eq_refl).
    intros r lst [].
  - refine (proj1 (proj2 (@no_matching_record_no_chart corpus_pairs
                            "USA" "BRA" (Some 5) _) _)).
    + apply no_record_selected. reflexivity.
    + discriminate.
Defined.

(** C10.  On a frame that has rows the function prints the diagnostic
    line and returns the empty series, drawing nothing, exactly when the
    subject counter is empty; and the counter is empty exactly when every
    record whose list holds both codes gives no label: its subject field
    is missing, or holds only empty or white-space pieces.  So this also
    happens when such records exist.  On a frame without rows the counter
    is empty as well, but the function raises [KeyError]. *)
Theorem empty_subject_counter_no_chart
    (df : DataFrame) (c1 c2 : string) (top_n : option Z) :
  let counter := count_subjects (filter (mentions_both c1 c2) df) in
  let out := plot_pair_mentions_by_subject df (c1, c2) top_n in
  (df = [] -> counter = [] /\ out = ([], Raise KeyError))
  /\ (df <> [] ->
      (counter = [] <->
       out = ([print ("No records found mentioning both " ++ c1 ++ " and "
                       ++ c2 ++ ".")%string], Return []))
      /\ (counter = [] <-> existsb renders (fst out) = false))
  /\ ((forall r lst, In r df -> countries_mentioned_list r = Some lst ->
                     In c1 lst -> In c2 lst -> no_label r)
      <-> counter = []).
Proof.
  intros counter out. split; [|split].
  - intros ->. split; reflexivity.
  - intros Hdf.
    assert (Hne : counter <> [] ->
                  exists calls res, out = (plt_figure :: calls, res)).
    { apply plot_pair_nonempty_counter. }
    split; split.
    + now apply plot_pair_empty_counter.
    + intros E. destruct counter as [|e rest] eqn:Ec; [reflexivity|].
      destruct Hne as [calls [res Hout]]; [discriminate|].
      rewrite Hout in E. discriminate E.
    + intros E. unfold out.
      rewrite (plot_pair_empty_counter c1 c2 top_n Hdf E). reflexivity.
    + intros E. destruct counter as [|e rest] eqn:Ec; [reflexivity|].
      destruct Hne as [calls [res Hout]]; [discriminate|].
      rewrite Hout in E. discriminate E.
  - unfold counter. rewrite count_subjects_empty_iff. split.
    + intros H r Hr. apply filter_In in Hr. destruct Hr as [Hr Hm].
      unfold mentions_both in Hm.
      destruct (countries_mentioned_list r) as [lst|] eqn:El;
        [|discriminate].
      apply andb_true_iff in Hm. destruct Hm as [H1 H2].
      apply isin_In in H1. apply isin_In in H2. now apply (H r lst).
    + intros H r lst Hr El H1 H2. apply H. apply filter_In. split;
        [assumption|].
      unfold mentions_both. rewrite El.
      apply andb_true_iff. split; now apply isin_In.
Qed.

(** Two records mention both USA and CAN, neither gives a label: the
    diagnostic is printed and nothing is drawn.  Without any record the
    function raises. *)
Lemma empty_subject_counter_no_chart_witness :
  filter (mentions_both "USA" "CAN") corpus_no_label = corpus_no_label
  /\ plot_pair_mentions_by_subject corpus_no_label ("USA", "CAN")%string None
     = ([print "No records found mentioning both USA and CAN."], Return [])
  /\ plot_pair_mentions_by_subject [] ("USA", "CAN")%string None
     = ([], Raise KeyError).
Proof.
  split; [reflexivity|]. split.
  - refine (proj1 (proj1 (proj1 (proj2 (@empty_subject_counter_no_chart
                            corpus_no_label "USA" "CAN" None)) _)) _).
    + discriminate.
    + reflexivity.
  - exact (proj2 (proj1 (@empty_subject_counter_no_chart
                           [] "USA" "CAN" None) eq_refl)).
Defined.

End PlotSpec.

(* ================================================================== *)
(** * More about the distance calculator *)

Module GeoMore.

Import Str StrFacts CodeGeo GeoSpec.
Local Open Scope R_scope.

(** The quantity [a] is a convex mix of two squares, whatever the four
    angles are. *)
Lemma hav_a_unit (lat1 lon1 lat2 lon2 : R) :
  0 <= hav_a lat1 lon1 lat2 lon2 <= 1.
Proof.
  unfold hav_a.
  set (w := radians (lon2 - lon1) / 2).
  assert (Hid : sin (radians (lat2 - lat1) / 2) ^ 2
                + cos (radians lat1) * cos (radians lat2)
                = cos ((radians lat1 + radians lat2) / 2) ^ 2).
  { rewrite <- half_angle_identity. unfold radians.
    do 2 f_equal. f_equal. lra. }
  set (su := sin (radians (lat2 - lat1) / 2) ^ 2) in *.
  set (cc := cos (radians lat1) * cos (radians lat2)) in *.
  set (cv := cos ((radians lat1 + radians lat2) / 2)) in *.
  assert (Hsu : 0 <= su <= 1).
  { unfold su. pose proof (SIN_bound (radians (lat2 - lat1) / 2)). nra. }
  assert (Hcv : 0 <= cv ^ 2 <= 1).
  { pose proof (COS_bound ((radians lat1 + radians lat2) / 2)).
    fold cv in H. nra. }
  assert (Hw : 0 <= sin w ^ 2 <= 1).
  { pose proof (SIN_bound w). nra. }
  replace cc with (cv ^ 2 - su) by lra.
  split; nra.
Qed.



(** X3.  A point is at distance 0 from itself. *)
Theorem haversine_same_point (lat lon : R) :
  haversine lat lon lat lon = Return 0.
Proof.
  assert (Ha : hav_a lat lon lat lon = 0).
  { unfold hav_a, radians.
    replace ((lat - lat) * (PI / 180) / 2) with 0 by lra.
    replace ((lon - lon) * (PI / 180) / 2) with 0 by lra.
    rewrite sin_0. ring. }
  rewrite haversine_in_domain by (rewrite Ha; lra).
  rewrite Ha, sqrt_0, asin_0. f_equal. ring.
Qed.

(** X4.  Along a meridian the distance is the arc: the radius times the
    difference of the latitudes in radians, when they differ by at most
    180 degrees. *)
Theorem haversine_meridian (lat1 lat2 lon : R) :
  -180 <= lat2 - lat1 <= 180 ->
  haversine lat1 lon lat2 lon
  = Return (6371 * Rabs (radians (lat2 - lat1))).
Proof.
  intros Hd. pose proof PI_RGT_0 as Hpi.
  set (x := radians (lat2 - lat1) / 2).
  assert (Hx : - (PI / 2) <= x <= PI / 2).
  { unfold x, radians. split; nra. }
  assert (Ha : hav_a lat1 lon lat2 lon = sin x ^ 2).
  { unfold hav_a. fold x.
    replace (radians (lon - lon) / 2) with 0 by (unfold radians; lra).
    rewrite sin_0. ring. }
  rewrite (haversine_in_domain (hav_a_unit lat1 lon lat2 lon)).
  rewrite Ha. do 2 f_equal.
  rewrite <- Rsqr_pow2, sqrt_Rsqr_abs.
  replace (radians (lat2 - lat1)) with (2 * x) by (unfold x; lra).
  rewrite Rabs_mult, (Rabs_pos_eq 2) by lra. f_equal.
  destruct (Rle_lt_dec 0 x) as [Hpos | Hneg].
  - rewrite (Rabs_pos_eq x) by assumption.
    rewrite Rabs_pos_eq by (apply sin_ge_0; lra).
    apply asin_sin. lra.
  - rewrite (Rabs_left x) by assumption.
    rewrite Rabs_left by (apply sin_lt_0_var; lra).
    rewrite <- sin_neg. apply asin_sin. lra.
Qed.

Lemma haversine_meridian_witness :
  haversine 10 25 (-35) 25 = Return (6371 * Rabs (radians (-35 - 10))).
Proof.
  apply (@haversine_meridian 10 (-35) 25). lra.
Defined.

(** X5.  Only the difference of the longitudes counts, and a full turn
    of 360 degrees on one longitude changes nothing. *)
Theorem haversine_longitude_shift (lat1 lon1 lat2 lon2 s : R) :
  haversine lat1 (lon1 + s) lat2 (lon2 + s) = haversine lat1 lon1 lat2 lon2
  /\ haversine lat1 lon1 lat2 (lon2 + 360) = haversine lat1 lon1 lat2 lon2
  /\ haversine lat1 lon1 lat2 (lon2 - 360) = haversine lat1 lon1 lat2 lon2.
Proof.
  assert (Hper : forall x, sin (x + PI) ^ 2 = sin x ^ 2).
  { intros x. rewrite neg_sin. ring. }
  unfold haversine, hav_a. repeat split.
  - replace (lon2 + s - (lon1 + s)) with (lon2 - lon1) by lra. reflexivity.
  - replace (radians (lon2 + 360 - lon1) / 2)
      with (radians (lon2 - lon1) / 2 + PI) by (unfold radians; lra).
    now rewrite Hper.
  - replace (radians (lon2 - lon1) / 2)
      with (radians (lon2 - 360 - lon1) / 2 + PI) by (unfold radians; lra).
    now rewrite Hper.
Qed.

End GeoMore.

(* ================================================================== *)
(** * More about [compute_distance] *)

Module DistanceMore.

Import Str StrFacts CodeGeo GeoSpec GeoExamples.
Local Open Scope R_scope.

Lemma find_app_first (df extra : DataFrame) (c : string) :
  In c (codes df) ->
  find (fun r => (code r =? c)%string) (df ++ extra)
  = find (fun r => (code r =? c)%string) df.
Proof.
  induction df as [|r df IH]; simpl; intros H.
  - contradiction.
  - destruct (String.eqb_spec (code r) c) as [E | NE]; [reflexivity|].
    apply IH. destruct H as [H | H]; [contradiction | assumption].
Qed.

Lemma isin_app_first (c : string) (xs ys : list string) :
  isin c xs = true -> isin c (xs ++ ys) = true.
Proof.
  unfold isin. rewrite existsb_app. intros ->. reflexivity.
Qed.

(** X6.  [compute_distance] answers in one of three ways, decided by its
    upper-cased arguments: the equal message when they are the same; the
    not-found message when they differ and one is not in the table;
    otherwise what [haversine] gives at the coordinates of the first rows
    of the two codes.  The selection [.values[0]] of lines 49-50 is never
    empty: [IndexError] is not raised. *)
Theorem compute_distance_outcomes (df : DataFrame) (iso1 iso2 : string) :
  compute_distance df iso1 iso2 <> Raise IndexError
  /\ ((upper iso1 = upper iso2
       /\ compute_distance df iso1 iso2 = Return (VStr msg_equal))
      \/ (upper iso1 <> upper iso2
          /\ (~ In (upper iso1) (codes df) \/ ~ In (upper iso2) (codes df))
          /\ compute_distance df iso1 iso2
             = Return (VStr (msg_missing (upper iso1) (upper iso2))))
      \/ (upper iso1 <> upper iso2
          /\ In (upper iso1) (codes df) /\ In (upper iso2) (codes df)
          /\ exists r1 r2,
               find (fun r => (code r =? upper iso1)%string) df = Some r1 /\
               find (fun r => (code r =? upper iso2)%string) df = Some r2 /\
               compute_distance df iso1 iso2
               = (d <- haversine (latitude r1) (longitude r1)
                                 (latitude r2) (longitude r2) ;;
                  Return (VFloat d)))).
Proof.
  destruct (string_dec (upper iso1) (upper iso2)) as [E | NE].
  { pose proof (compute_distance_eq_branch df iso1 iso2 E) as Hc.
    split; [rewrite Hc; discriminate | left; auto]. }
  destruct (isin (upper iso1) (codes df)) eqn:H1;
    [destruct (isin (upper iso2) (codes df)) eqn:H2|].
  - apply isin_In in H1. apply isin_In in H2.
    destruct (compute_distance_found_branch df iso1 iso2 NE H1 H2)
      as [r1 [r2 [F1 [F2 Hc]]]].
    split.
    + rewrite Hc. unfold haversine, math_sqrt, math_asin.
      destruct (Rlt_dec _ 0); [discriminate|]. cbn [bind].
      destruct (Rlt_dec _ (-1)); [discriminate|].
      destruct (Rlt_dec 1 _); discriminate.
    + right. right. repeat split; try assumption.
      exists r1, r2. auto.
  - apply isin_not_In in H2.
    pose proof (compute_distance_missing_branch df iso1 iso2 NE
                  (or_intror H2)) as Hc.
    split; [rewrite Hc; discriminate|].
    right. left. auto.
  - apply isin_not_In in H1.
    pose proof (compute_distance_missing_branch df iso1 iso2 NE
                  (or_introl H1)) as Hc.
    split; [rewrite Hc; discriminate|].
    right. left. auto.
Qed.

(** X7.  Rows that come after the rows of a table do not change an
    answer about two codes of the table: for a code that occurs twice, the
    first row is the one that is read. *)
Theorem later_rows_ignored (df extra : DataFrame) (iso1 iso2 : string) :
  In (upper iso1) (codes df) -> In (upper iso2) (codes df) ->
  compute_distance (df ++ extra) iso1 iso2 = compute_distance df iso1 iso2.
Proof.
  intros H1 H2. unfold compute_distance, loc, codes.
  rewrite !find_app_first by assumption.
  rewrite map_app.
  apply isin_In in H1. apply isin_In in H2. unfold codes in H1, H2.
  rewrite (isin_app_first _ _ _ H1), (isin_app_first _ _ _ H2), H1, H2.
  reflexivity.
Qed.

Lemma later_rows_ignored_witness :
  compute_distance table_twins "aaa" "bbb"
  = compute_distance [mkCountry "AAA" 10 20; mkCountry "BBB" 10 20]
                     "aaa" "bbb".
Proof.
  apply (@later_rows_ignored
           [mkCountry "AAA" 10 20; mkCountry "BBB" 10 20]
           [mkCountry "AAA" 50 60] "aaa" "bbb").
  - left. reflexivity.
  - right. left. reflexivity.
Defined.

(** X8.  Upper-casing the arguments before the call changes nothing. *)
Theorem compute_distance_upper_arguments
    (df : DataFrame) (iso1 iso2 : string) :
  compute_distance df (upper iso1) (upper iso2)
  = compute_distance df iso1 iso2
  /\ compute_distance df (upper iso1) iso2 = compute_distance df iso1 iso2
  /\ compute_distance df iso1 (upper iso2) = compute_distance df iso1 iso2.
Proof.
  unfold compute_distance. rewrite !upper_idem. repeat split.
Qed.

(** X9.  Two different codes whose rows carry the same centroid are at
    distance 0: the number 0 is a possible answer for different codes. *)
Theorem same_centroid_distance_zero
    (df : DataFrame) (iso1 iso2 : string) (r1 r2 : CountryRecord) :
  upper iso1 <> upper iso2 ->
  find (fun r => (code r =? upper iso1)%string) df = Some r1 ->
  find (fun r => (code r =? upper iso2)%string) df = Some r2 ->
  latitude r1 = latitude r2 -> longitude r1 = longitude r2 ->
  compute_distance df iso1 iso2 = Return (VFloat 0).
Proof.
  intros NE F1 F2 Elat Elon.
  assert (H1 : In (upper iso1) (codes df)).
  { apply find_some in F1. destruct F1 as [Hin E].
    apply String.eqb_eq in E. rewrite <- E. now apply in_map. }
  assert (H2 : In (upper iso2) (codes df)).
  { apply find_some in F2. destruct F2 as [Hin E].
    apply String.eqb_eq in E. rewrite <- E. now apply in_map. }
  destruct (compute_distance_found_branch df iso1 iso2 NE H1 H2)
    as [r1' [r2' [F1' [F2' E]]]].
  assert (r1' = r1) by congruence. assert (r2' = r2) by congruence.
  subst r1' r2'. rewrite E, Elat, Elon.
  pose proof (GeoMore.hav_a_unit (latitude r2) (longitude r2)
                (latitude r2) (longitude r2)) as Ha.
  assert (Hz : hav_a (latitude r2) (longitude r2)
                     (latitude r2) (longitude r2) = 0).
  { unfold hav_a, radians.
    replace ((latitude r2 - latitude r2) * (PI / 180) / 2) with 0 by lra.
    replace ((longitude r2 - longitude r2) * (PI / 180) / 2) with 0 by lra.
    rewrite sin_0. ring. }
  rewrite (haversine_in_domain Ha), Hz, sqrt_0, asin_0. simpl.
  do 2 f_equal. ring.
Qed.

Lemma same_centroid_distance_zero_witness :
  compute_distance table_twins "AAA" "BBB" = Return (VFloat 0).
Proof.
  apply (@same_centroid_distance_zero table_twins "AAA" "BBB"
           (mkCountry "AAA" 10 20) (mkCountry "BBB" 10 20));
    try reflexivity.
  discriminate.
Defined.

End DistanceMore.

(* ================================================================== *)
(** * More about the string functions *)

Module StrMore.

Import Str StrShape.
Local Open Scope string_scope.

Lemma lstrip_shape (s : string) :
  exists l, s = l ++ lstrip s
            /\ all_space l = true /\ head_space (lstrip s) = false.
Proof.
  induction s as [|c t [l [E [Hl Hh]]]]; simpl.
  - exists EmptyString. auto.
  - destruct (isspace c) eqn:Hc.
    + exists (String c l). simpl. rewrite Hc, Hl, <- E. auto.
    + exists EmptyString. simpl. auto.
Qed.

Lemma rstrip_shape (s : string) :
  exists r, s = rstrip s ++ r
            /\ all_space r = true /\ last_space (rstrip s) = false.
Proof.
  induction s as [|c t [r [E [Hr Hl]]]]; simpl.
  - exists EmptyString. auto.
  - destruct (rstrip t) as [|d t'] eqn:Et.
    + simpl in E. subst r. destruct (isspace c) eqn:Hc.
      * exists (String c t). simpl. rewrite Hc, Hr. auto.
      * exists t. simpl. auto.
    + exists r. repeat split.
      * rewrite E at 1. reflexivity.
      * exact Hr.
      * exact Hl.
Qed.

Lemma rstrip_keeps_head (s : string) :
  head_space s = false -> head_space (rstrip s) = false.
Proof.
  destruct s as [|c t]; simpl; [reflexivity|]. intros Hc.
  destruct (rstrip t); [rewrite Hc|]; simpl; assumption.
Qed.

Lemma lstrip_fixed (s : string) : head_space s = false -> lstrip s = s.
Proof.
  destruct s as [|c t]; simpl; [reflexivity|]. now intros ->.
Qed.

Lemma rstrip_fixed (s : string) : last_space s = false -> rstrip s = s.
Proof.
  induction s as [|c t IH]; simpl; [reflexivity|].
  destruct t as [|d t'].
  - simpl. now intros ->.
  - intros H. rewrite (IH H). reflexivity.
Qed.

Lemma all_space_app (s t : string) :
  all_space (s ++ t) = all_space s && all_space t.
Proof.
  induction s as [|c s IH]; simpl; [reflexivity|].
  now rewrite IH, andb_assoc.
Qed.

Lemma lstrip_all_space (s : string) :
  all_space s = true -> lstrip s = EmptyString.
Proof.
  induction s as [|c t IH]; simpl; [reflexivity|].
  rewrite andb_true_iff. intros [-> Ht]. now apply IH.
Qed.

(** X10.  [strip] removes white space at the two ends and nothing else:
    the string is its stripped form between two runs of white space, and
    the stripped form neither starts nor ends with white space.  Hence
    stripping twice is stripping once, and the stripped form is empty
    exactly when the string is all white space. *)
Theorem strip_shape (s : string) :
  (exists l r, s = l ++ strip s ++ r
               /\ all_space l = true /\ all_space r = true)
  /\ head_space (strip s) = false
  /\ last_space (strip s) = false
  /\ strip (strip s) = strip s
  /\ (strip s = EmptyString <-> all_space s = true).
Proof.
  destruct (lstrip_shape s) as [l [El [Hl Hh]]].
  destruct (rstrip_shape (lstrip s)) as [r [Er [Hr Hlast]]].
  assert (Hhead : head_space (strip s) = false)
    by (apply rstrip_keeps_head, Hh).
  split; [|split; [|split; [|split]]].
  - exists l, r. unfold strip. rewrite <- Er. auto.
  - exact Hhead.
  - exact Hlast.
  - unfold strip at 1. rewrite (lstrip_fixed _ Hhead).
    apply rstrip_fixed, Hlast.
  - split.
    + intros E. unfold strip in E. rewrite E in Er. simpl in Er.
      rewrite El, Er, all_space_app, Hl, Hr. reflexivity.
    + intros H. unfold strip. now rewrite (lstrip_all_space _ H).
Qed.

(** ** [split] *)

Lemma split_cons (sep : ascii) (s : string) :
  exists piece rest, split sep s = piece :: rest.
Proof.
  destruct s as [|c t]; simpl.
  - eauto.
  - destruct (c =? sep)%char; [eauto|].
    destruct (split sep t); eauto.
Qed.

Lemma concat_cons_char (sep : string) (c : ascii) (piece : string)
    (rest : list string) :
  String.concat sep (String c piece :: rest)
  = String c (String.concat sep (piece :: rest)).
Proof. destruct rest; reflexivity. Qed.

(** X11.  [split] cuts a string at every separator: joining the pieces
    with the separator gives the string back, no piece holds the separator,
    and there is one piece more than there are separators. *)
Theorem split_pieces (sep : ascii) (s : string) :
  String.concat (String sep EmptyString) (split sep s) = s
  /\ Forall (fun piece => has_char sep piece = false) (split sep s)
  /\ List.length (split sep s) = S (count_char sep s).
Proof.
  induction s as [|c t [IHc [IHf IHl]]]; simpl.
  - repeat split. constructor; [reflexivity | constructor].
  - destruct (split_cons sep t) as [piece [rest E]].
    destruct (Ascii.eqb_spec c sep) as [-> | NE].
    + repeat split.
      * rewrite E in *. simpl. simpl in IHc. now rewrite IHc.
      * constructor; [reflexivity | assumption].
      * simpl. now rewrite IHl.
    + rewrite E in *. repeat split.
      * rewrite concat_cons_char. now rewrite IHc.
      * inversion IHf as [|? ? Hp Hr]; subst.
        constructor; [|assumption]. simpl.
        apply Ascii.eqb_neq in NE. now rewrite NE.
      * exact IHl.
Qed.

Lemma split_piece_first (sep : ascii) (piece : string) (s : string) :
  has_char sep piece = false ->
  split sep (piece ++ String sep s) = piece :: split sep s.
Proof.
  induction piece as [|c p IH]; simpl.
  - intros _. now rewrite Ascii.eqb_refl.
  - rewrite orb_false_iff. intros [Hc Hp].
    rewrite Hc, (IH Hp). reflexivity.
Qed.

Lemma split_piece_alone (sep : ascii) (piece : string) :
  has_char sep piece = false -> split sep piece = [piece].
Proof.
  induction piece as [|c p IH]; simpl.
  - reflexivity.
  - rewrite orb_false_iff. intros [Hc Hp].
    rewrite Hc, (IH Hp). reflexivity.
Qed.

(** X12.  The other way round: splitting the join of pieces that hold no
    separator gives the pieces back, when there is at least one piece. *)
Theorem split_concat (sep : ascii) (pieces : list string) :
  pieces <> [] ->
  Forall (fun piece => has_char sep piece = false) pieces ->
  split sep (String.concat (String sep EmptyString) pieces) = pieces.
Proof.
  intros Hne Hf. induction Hf as [|piece rest Hp Hr IH].
  - contradiction.
  - destruct rest as [|piece' rest'].
    + simpl. now apply split_piece_alone.
    + change (String.concat (String sep EmptyString)
                            (piece :: piece' :: rest'))
        with (piece ++ String sep
                (String.concat (String sep EmptyString) (piece' :: rest'))).
      rewrite (@split_piece_first sep piece _ Hp), IH by discriminate.
      reflexivity.
Qed.

Lemma split_concat_witness :
  split "," (String.concat "," ["PHYS"; " MATH"; EmptyString])
  = ["PHYS"; " MATH"; EmptyString].
Proof.
  apply (@split_concat "," ["PHYS"; " MATH"; EmptyString]).
  - discriminate.
  - repeat constructor.
Defined.

(** ** [replace] and the cleaning of a code *)

Lemma has_char_app (q : ascii) (s t : string) :
  has_char q (s ++ t) = has_char q s || has_char q t.
Proof.
  induction s as [|c s IH]; simpl; [reflexivity|].
  now rewrite IH, orb_assoc.
Qed.

Lemma has_char_remove_char (q : ascii) (s : string) :
  has_char q (remove_char q s) = false.
Proof.
  induction s as [|c t IH]; simpl; [reflexivity|].
  destruct (c =? q)%char eqn:E; simpl; [assumption|].
  now rewrite E.
Qed.

Lemma remove_char_fixed (q : ascii) (s : string) :
  has_char q s = false -> remove_char q s = s.
Proof.
  induction s as [|c t IH]; simpl; [reflexivity|].
  rewrite orb_false_iff. intros [-> Ht]. now rewrite (IH Ht).
Qed.

Lemma has_char_strip (q : ascii) (s : string) :
  has_char q s = false -> has_char q (strip s) = false.
Proof.
  destruct (lstrip_shape s) as [l [El _]].
  destruct (rstrip_shape (lstrip s)) as [r [Er _]]. intros H.
  rewrite El, Er, !has_char_app, !orb_false_iff in H. unfold strip. tauto.
Qed.

Lemma strip_ends (s : string) :
  head_space (strip s) = false /\ last_space (strip s) = false.
Proof.
  destruct (lstrip_shape s) as [_ [_ [_ Hh]]].
  destruct (rstrip_shape (lstrip s)) as [_ [_ [_ Hl]]].
  split; [apply rstrip_keeps_head, Hh | exact Hl].
Qed.

Lemma strip_fixed (s : string) :
  head_space s = false -> last_space s = false -> strip s = s.
Proof.
  intros Hh Hl. unfold strip. rewrite (lstrip_fixed _ Hh).
  now apply rstrip_fixed.
Qed.

End StrMore.

(* ================================================================== *)
(** * More about the loading of the table *)

Module LoaderMore.

Import Str StrShape StrMore CodeGeo.

Lemma clean_code_clean (s : string) :
  has_char quote (clean_code s) = false
  /\ head_space (clean_code s) = false
  /\ last_space (clean_code s) = false.
Proof.
  unfold clean_code. split.
  - apply has_char_strip, has_char_remove_char.
  - apply strip_ends.
Qed.

Lemma clean_code_fixed (s : string) :
  has_char quote s = false -> head_space s = false ->
  last_space s = false -> clean_code s = s.
Proof.
  intros Hq Hh Hl. unfold clean_code.
  rewrite (remove_char_fixed _ _ Hq). now apply strip_fixed.
Qed.

(** X13.  Lines 22-27 bring every code of the table to a form without
    quote characters and without white space at its ends; applying them
    again changes nothing.  They keep the number of rows, their order and
    the two coordinate columns. *)
Theorem clean_codes_normal_form (raw : DataFrame) :
  Forall (fun c => has_char quote c = false
                   /\ head_space c = false /\ last_space c = false)
         (codes (clean_codes raw))
  /\ clean_codes (clean_codes raw) = clean_codes raw
  /\ List.length (clean_codes raw) = List.length raw
  /\ map latitude (clean_codes raw) = map latitude raw
  /\ map longitude (clean_codes raw) = map longitude raw.
Proof.
  unfold clean_codes, codes. repeat split.
  - rewrite map_map. simpl. apply Forall_forall. intros c Hc.
    apply in_map_iff in Hc. destruct Hc as [r [<- _]].
    apply clean_code_clean.
  - rewrite map_map. apply map_ext. intros r. simpl. f_equal.
    destruct (clean_code_clean (code r)) as [Hq [Hh Hl]].
    now apply clean_code_fixed.
  - apply length_map.
  - rewrite map_map. reflexivity.
  - rewrite map_map. reflexivity.
Qed.

End LoaderMore.

(* ================================================================== *)
(** * Facts about series *)

Section SeriesFacts.

Variable L : Type.

Local Open Scope Z_scope.

(** Rows in descending order of their values. *)
Local Abbreviation desc := (fun x y : L * Z => snd y <= snd x).

Lemma insert_by_value_perm (x : L * Z) (l : list (L * Z)) :
  Permutation (insert_by_value x l) (x :: l).
Proof.
  induction l as [|y l IH]; simpl.
  - apply Permutation_refl.
  - destruct (snd y <=? snd x).
    + apply Permutation_refl.
    + eapply perm_trans; [apply perm_skip, IH | apply perm_swap].
Qed.

Lemma sort_values_perm (s : list (L * Z)) : Permutation (sort_values s) s.
Proof.
  unfold sort_values. induction s as [|x s IH]; simpl.
  - apply perm_nil.
  - eapply perm_trans; [apply insert_by_value_perm | apply perm_skip, IH].
Qed.

Lemma insert_by_value_sorted (x : L * Z) (l : list (L * Z)) :
  StronglySorted desc l -> StronglySorted desc (insert_by_value x l).
Proof.
  induction 1 as [|y l Hs IH Hy]; simpl.
  - constructor; constructor.
  - destruct (Z.leb_spec (snd y) (snd x)) as [Hle | Hgt].
    + constructor; [constructor; assumption|].
      constructor; [assumption|].
      eapply Forall_impl; [|exact Hy]. simpl. intros z Hz. lia.
    + constructor; [assumption|].
      apply Forall_forall. intros z Hz.
      apply (Permutation_in _ (insert_by_value_perm x l)) in Hz.
      destruct Hz as [<- | Hz]; [lia|].
      rewrite Forall_forall in Hy. now apply Hy.
Qed.

Lemma sort_values_sorted (s : list (L * Z)) :
  StronglySorted desc (sort_values s).
Proof.
  unfold sort_values. induction s as [|x s IH]; simpl.
  - constructor.
  - now apply insert_by_value_sorted.
Qed.

Lemma head_rows_firstn (n : Z) (s : list (L * Z)) :
  exists k, head_rows n s = firstn k s.
Proof.
  unfold head_rows. destruct (0 <=? n); eauto.
Qed.

Lemma firstn_sorted (k : nat) (s : list (L * Z)) :
  StronglySorted desc s -> StronglySorted desc (firstn k s).
Proof.
  intros H. revert k. induction H as [|x s Hs IH Hx]; intros [|k]; simpl;
    try constructor.
  - apply IH.
  - rewrite Forall_forall in *. intros y Hy. apply Hx.
    rewrite <- (firstn_skipn k s). apply in_or_app. now left.
Qed.

Lemma In_firstn (A : Type) (k : nat) (l : list A) (x : A) :
  In x (firstn k l) -> In x l.
Proof.
  intros H. rewrite <- (firstn_skipn k l). apply in_or_app. now left.
Qed.

(** In a descending list a row kept by [firstn] is not below a row that
    is left out. *)
Lemma firstn_keeps_largest (k : nat) (s : list (L * Z)) (kept out : L * Z) :
  StronglySorted desc s ->
  In kept (firstn k s) -> In out s -> ~ In out (firstn k s) ->
  snd out <= snd kept.
Proof.
  intros H. revert k. induction H as [|x s Hs IH Hx]; intros [|k]; simpl;
    try tauto.
  rewrite Forall_forall in Hx.
  intros [<- | Hk] [<- | Ho] Hn; try tauto.
  - now apply Hx.
  - apply (IH k); tauto.
Qed.

Lemma length_head_rows (n : Z) (s : list (L * Z)) :
  0 <= n -> List.length (head_rows n s) = Nat.min (Z.to_nat n) (List.length s).
Proof.
  intros Hn. unfold head_rows.
  destruct (Z.leb_spec 0 n); [apply length_firstn | lia].
Qed.

Lemma total_perm (s t : list (L * Z)) :
  Permutation s t -> total s = total t.
Proof.
  induction 1; simpl; lia.
Qed.

End SeriesFacts.

(* ================================================================== *)
(** * More facts about counters *)

Section CounterMore.

Variable K : Type.
Variable K_eqb : K -> K -> bool.
Hypothesis K_eqb_eq : forall x y, K_eqb x y = true <-> x = y.

Local Open Scope Z_scope.

Lemma NoDup_keys_incr (counter : Counter K) (k : K) :
  NoDup (keys counter) -> NoDup (keys (incr K_eqb counter k)).
Proof.
  unfold keys. induction counter as [|[k0 n] rest IH]; simpl; intros H.
  - constructor; [tauto | constructor].
  - inversion H as [|? ? Hnin Hnd]; subst.
    destruct (K_eqb k0 k) eqn:E; simpl.
    + constructor; assumption.
    + constructor; [|now apply IH].
      intros Hin. apply (@keys_incr _ _ K_eqb_eq) in Hin.
      destruct Hin as [-> | Hin]; [|contradiction].
      assert (Hr : K_eqb k k = true) by now apply K_eqb_eq.
      congruence.
Qed.

Lemma positive_incr (counter : Counter K) (k : K) :
  Forall (fun row => 1 <= snd row) counter ->
  Forall (fun row => 1 <= snd row) (incr K_eqb counter k).
Proof.
  induction 1 as [|[k0 n] rest Hn Hrest IH]; simpl.
  - constructor; [simpl; lia | constructor].
  - destruct (K_eqb k0 k); constructor; simpl in *; try assumption; lia.
Qed.

Lemma total_incr (counter : Counter K) (k : K) :
  total (incr K_eqb counter k) = total counter + 1.
Proof.
  induction counter as [|[k0 n] rest IH]; simpl.
  - lia.
  - destruct (K_eqb k0 k); simpl; lia.
Qed.

(** A run of increments keeps the keys distinct and the values positive,
    and adds its length to the total. *)
Lemma fold_incr_invariants (l : list K) (counter : Counter K) :
  NoDup (keys counter) -> Forall (fun row => 1 <= snd row) counter ->
  NoDup (keys (fold_left (incr K_eqb) l counter))
  /\ Forall (fun row => 1 <= snd row) (fold_left (incr K_eqb) l counter).
Proof.
  revert counter. induction l as [|k l IH]; intros counter Hn Hp; simpl.
  - auto.
  - apply IH; [now apply NoDup_keys_incr | now apply positive_incr].
Qed.

Lemma total_fold_incr (l : list K) (counter : Counter K) :
  total (fold_left (incr K_eqb) l counter)
  = total counter + Z.of_nat (List.length l).
Proof.
  revert counter. induction l as [|k l IH]; intros counter; simpl List.length.
  - simpl. lia.
  - simpl fold_left. rewrite IH, total_incr. lia.
Qed.

(** With distinct keys a row holds what [get] reads. *)
Lemma get_row (counter : Counter K) (k : K) (n : Z) :
  NoDup (keys counter) -> In (k, n) counter -> get K_eqb counter k = n.
Proof.
  unfold keys. induction counter as [|[k0 n0] rest IH]; simpl; intros Hnd Hin.
  - contradiction.
  - inversion Hnd as [|? ? Hnin Hnd']; subst.
    destruct Hin as [E | Hin].
    + injection E as -> ->.
      assert (Hr : K_eqb k k = true) by now apply K_eqb_eq.
      now rewrite Hr.
    + destruct (K_eqb k0 k) eqn:E.
      * apply K_eqb_eq in E. subst k0. exfalso. apply Hnin.
        apply in_map_iff. exists (k, n). auto.
      * now apply IH.
Qed.

End CounterMore.

(* ================================================================== *)
(** * More about the co-mention counts *)

Module PairsMore.

Import Str StrFacts StrOrder Plot PlotSpec PlotData.

Local Open Scope Z_scope.

(** ** One record *)

(** A strictly increasing list is fixed by its elements. *)
Lemma increasing_unique (l1 l2 : list string) :
  StronglySorted lt l1 -> StronglySorted lt l2 ->
  (forall x, In x l1 <-> In x l2) -> l1 = l2.
Proof.
  intros H1. revert l2.
  induction H1 as [|a l1 Hs1 IH Ha]; intros l2 H2 Hiff.
  - destruct l2 as [|b l2]; [reflexivity|].
    exfalso. apply (proj2 (Hiff b)). now left.
  - destruct H2 as [|b l2 Hs2 Hb].
    + exfalso. apply (proj1 (Hiff a)). now left.
    + rewrite Forall_forall in Ha, Hb.
      assert (Eab : a = b).
      { destruct (proj1 (Hiff a) (or_introl eq_refl)) as [E | Hin];
          [now symmetry|].
        destruct (proj2 (Hiff b) (or_introl eq_refl)) as [E | Hin'];
          [assumption|].
        exfalso. apply (@lt_irrefl a).
        apply lt_trans with b; [now apply Ha | now apply Hb]. }
      subst b. f_equal. apply IH; [assumption|].
      intros x. split; intros Hx.
      * destruct (proj1 (Hiff x) (or_intror Hx)) as [E | Hin];
          [|assumption].
        subst x. exfalso. apply (@lt_irrefl a). now apply Ha.
      * destruct (proj2 (Hiff x) (or_intror Hx)) as [E | Hin];
          [|assumption].
        subst x. exfalso. apply (@lt_irrefl a). now apply Hb.
Qed.

Lemma uniq_by_elements (l1 l2 : list string) :
  (forall x, In x l1 <-> In x l2) ->
  sorted (to_set l1) = sorted (to_set l2).
Proof.
  intros H. apply increasing_unique;
    try (apply sorted_increasing, NoDup_to_set).
  intros x. rewrite !In_sorted, !In_to_set. apply H.
Qed.

(** X14.  What a record adds depends on the set of its codes only: two
    lists with the same elements, in any order and with any repetitions,
    change a counter in the same way. *)
Theorem count_record_by_set (counter : Counter Pair) (l1 l2 : list string) :
  (forall x, In x l1 <-> In x l2) ->
  count_record counter l1 = count_record counter l2.
Proof.
  intros H. unfold count_record. now rewrite (uniq_by_elements l1 l2 H).
Qed.

Lemma count_record_by_set_witness :
  count_record [] ["USA"; "CAN"; "USA"]%string
  = count_record [] ["CAN"; "USA"]%string.
Proof.
  apply (@count_record_by_set [] ["USA"; "CAN"; "USA"]%string
           ["CAN"; "USA"]%string).
  intros x. simpl. tauto.
Defined.

Lemma length_insert (x : string) (l : list string) :
  List.length (insert x l) = S (List.length l).
Proof.
  induction l as [|y l IH]; simpl; [reflexivity|].
  destruct (String.leb x y); simpl; [reflexivity | now rewrite IH].
Qed.

Lemma length_sorted (l : list string) :
  List.length (sorted l) = List.length l.
Proof.
  unfold sorted. induction l as [|x l IH]; simpl; [reflexivity|].
  now rewrite length_insert, IH.
Qed.

Lemma length_combinations2 (A : Type) (l : list A) :
  2 * Z.of_nat (List.length (combinations2 l))
  = Z.of_nat (List.length l) * (Z.of_nat (List.length l) - 1).
Proof.
  induction l as [|a l IH]; simpl List.length; [reflexivity|].
  rewrite length_app, length_map. lia.
Qed.

(** X15.  A record with [k] distinct codes makes [k * (k - 1) / 2]
    increments: the total of the counter grows by the number of unordered
    pairs of its codes. *)
Theorem count_record_total (counter : Counter Pair) (lst : list string) :
  let k := Z.of_nat (List.length (to_set lst)) in
  total (count_record counter lst) = total counter + k * (k - 1) / 2.
Proof.
  intros k. unfold count_record.
  rewrite (total_fold_incr Pair_eqb). f_equal.
  pose proof (length_combinations2 (sorted (to_set lst))) as H.
  rewrite length_sorted in H. fold k in H.
  rewrite <- H, (Z.mul_comm 2), Z.div_mul by lia. reflexivity.
Qed.

(** X16.  A record that names one code only, however often, leaves the
    counter as it is. *)
Theorem single_code_record (counter : Counter Pair) (lst : list string) :
  (forall x y, In x lst -> In y lst -> x = y) ->
  count_record counter lst = counter.
Proof.
  intros H. unfold count_record.
  assert (E : combinations2 (sorted (to_set lst)) = []).
  { destruct (combinations2 (sorted (to_set lst))) as [|[a b] rest] eqn:E;
      [reflexivity|].
    assert (Hin : In (a, b) (combinations2 (sorted (to_set lst))))
      by (rewrite E; now left).
    apply In_pairs_of_record in Hin. destruct Hin as [Ha [Hb Hlt]].
    exfalso. apply (lt_neq Hlt). now apply H. }
  now rewrite E.
Qed.

Lemma single_code_record_witness :
  count_record [(("CAN", "USA")%string, 4)] ["MEX"; "MEX"]%string
  = [(("CAN", "USA")%string, 4)].
Proof.
  apply (@single_code_record [(("CAN", "USA")%string, 4)]
           ["MEX"; "MEX"]%string).
  intros x y [<- | [<- | []]] [<- | [<- | []]]; reflexivity.
Defined.

(** ** The whole corpus *)

Lemma count_record_invariants (counter : Counter Pair) (lst : list string) :
  NoDup (keys counter) -> Forall (fun row => 1 <= snd row) counter ->
  NoDup (keys (count_record counter lst))
  /\ Forall (fun row => 1 <= snd row) (count_record counter lst).
Proof.
  intros Hn Hp. unfold count_record.
  now apply (@fold_incr_invariants _ _ Pair_eqb_eq).
Qed.

Lemma count_from_invariants (column : list (list string))
    (counter : Counter Pair) :
  NoDup (keys counter) -> Forall (fun row => 1 <= snd row) counter ->
  NoDup (keys (fold_left count_record column counter))
  /\ Forall (fun row => 1 <= snd row) (fold_left count_record column counter).
Proof.
  revert counter. induction column as [|lst column IH];
    intros counter Hn Hp; simpl.
  - auto.
  - destruct (count_record_invariants lst Hn Hp). now apply IH.
Qed.

Lemma count_co_mentions_invariants (df : DataFrame) :
  NoDup (keys (count_co_mentions df))
  /\ Forall (fun row => 1 <= snd row) (count_co_mentions df).
Proof.
  unfold count_co_mentions. apply count_from_invariants; constructor.
Qed.

Lemma keys_count_from (df : DataFrame) (counter : Counter Pair) (p : Pair) :
  In p (keys (fold_left count_record
                        (dropna (map countries_mentioned_list df)) counter))
  <-> In p (keys counter)
      \/ (lt (fst p) (snd p)
          /\ exists r, In r df /\ mentions_both (fst p) (snd p) r = true).
Proof.
  revert counter. induction df as [|r df IH]; intros counter; simpl.
  - split; [auto | intros [H | [_ [r [[] _]]]]; exact H].
  - destruct (countries_mentioned_list r) as [lst|] eqn:E; simpl.
    + rewrite IH, keys_count_record. split.
      * intros [[H | [Ha [Hb Hlt]]] | [Hlt [r' [Hr' Hm]]]].
        -- now left.
        -- right. split; [assumption|]. exists r. split; [now left|].
           unfold mentions_both. rewrite E.
           apply andb_true_iff. split; now apply isin_In.
        -- right. split; [assumption|]. exists r'. auto.
      * intros [H | [Hlt [r' [[<- | Hr'] Hm]]]].
        -- left. now left.
        -- left. right. unfold mentions_both in Hm. rewrite E in Hm.
           apply andb_true_iff in Hm. destruct Hm as [Ha Hb].
           apply isin_In in Ha. apply isin_In in Hb. auto.
        -- right. split; [assumption|]. exists r'. auto.
    + rewrite IH. split.
      * intros [H | [Hlt [r' [Hr' Hm]]]]; [now left|].
        right. split; [assumption|]. exists r'. auto.
      * intros [H | [Hlt [r' [[<- | Hr'] Hm]]]]; [now left | |].
        -- unfold mentions_both in Hm. rewrite E in Hm. discriminate Hm.
        -- right. split; [assumption|]. exists r'. auto.
Qed.

(** X17.  The counter holds a pair exactly when the pair is in canonical
    order and some record mentions both of its codes.  Its keys are
    distinct and every stored count is at least 1. *)
Theorem counted_pairs (df : DataFrame) :
  (forall a b,
     In (a, b) (keys (count_co_mentions df))
     <-> lt a b /\ exists r, In r df /\ mentions_both a b r = true)
  /\ NoDup (keys (count_co_mentions df))
  /\ Forall (fun row => 1 <= snd row) (count_co_mentions df)
  /\ Forall (fun row => snd row
                        = get Pair_eqb (count_co_mentions df) (fst row))
            (count_co_mentions df).
Proof.
  destruct (count_co_mentions_invariants df) as [Hn Hp].
  split; [|split; [exact Hn | split; [exact Hp|]]].
  - intros a b. unfold count_co_mentions.
    rewrite (keys_count_from df [] (a, b)). simpl. tauto.
  - apply Forall_forall. intros [k n] Hrow. simpl. symmetry.
    now apply (@get_row _ _ Pair_eqb_eq).
Qed.

(** X18.  The counts do not depend on the order of the records, and the
    counts of two corpora put together are the sums of their counts. *)
Theorem counts_of_corpora (df1 df2 : DataFrame) (p : Pair) :
  (Permutation df1 df2 ->
   get Pair_eqb (count_co_mentions df1) p
   = get Pair_eqb (count_co_mentions df2) p)
  /\ get Pair_eqb (count_co_mentions (df1 ++ df2)) p
     = get Pair_eqb (count_co_mentions df1) p
       + get Pair_eqb (count_co_mentions df2) p.
Proof.
  destruct p as [a b]. unfold count_co_mentions. rewrite !get_count_from.
  simpl get. split.
  - intros H. destruct (String.ltb a b); [|reflexivity].
    do 2 f_equal. apply Permutation_length.
    clear - H. induction H; simpl.
    + constructor.
    + destruct (mentions_both a b x); [now constructor | assumption].
    + destruct (mentions_both a b x), (mentions_both a b y);
        try apply Permutation_refl. apply perm_swap.
    + eapply perm_trans; eassumption.
  - destruct (String.ltb a b); [|reflexivity].
    rewrite filter_app, length_app. lia.
Qed.

Lemma counts_of_corpora_witness :
  get Pair_eqb (count_co_mentions (corpus_no_label ++ corpus_pairs))
      ("CAN", "USA")%string
  = get Pair_eqb (count_co_mentions (corpus_pairs ++ corpus_no_label))
        ("CAN", "USA")%string.
Proof.
  apply (proj1 (@counts_of_corpora (corpus_no_label ++ corpus_pairs)
                  (corpus_pairs ++ corpus_no_label)
                  ("CAN", "USA")%string)).
  apply Permutation_app_comm.
Defined.

(** ** The strongest pairs *)

Lemma NoDup_firstn_map (A B : Type) (f : A -> B) (k : nat) (l : list A) :
  NoDup (map f l) -> NoDup (map f (firstn k l)).
Proof.
  intros H. rewrite <- (firstn_skipn k l), map_app in H.
  now apply NoDup_app_remove_r in H.
Qed.

Lemma sorted_counter_rows (df : DataFrame) (row : Pair * Z) :
  In row (sort_values (count_co_mentions df)) <->
  In row (count_co_mentions df).
Proof.
  split; apply Permutation_in;
    [|apply Permutation_sym]; apply sort_values_perm.
Qed.

(** A row of the counter: a canonical pair with its count. *)
Lemma counter_row (df : DataFrame) (row : Pair * Z) :
  In row (count_co_mentions df) ->
  lt (fst (fst row)) (snd (fst row))
  /\ snd row = get Pair_eqb (count_co_mentions df) (fst row)
  /\ 1 <= snd row.
Proof.
  intros H. destruct (count_co_mentions_invariants df) as [Hn Hp].
  split; [|split].
  - assert (Hc : Forall (fun p => lt (fst p) (snd p))
                        (keys (count_co_mentions df))).
    { unfold count_co_mentions. apply canonical_keys_from. constructor. }
    rewrite Forall_forall in Hc. apply Hc. unfold keys. now apply in_map.
  - destruct row as [k n]. simpl. symmetry.
    now apply (@get_row _ _ Pair_eqb_eq).
  - rewrite Forall_forall in Hp. now apply Hp.
Qed.

(** The rows kept by [head] of the sorted counter: in descending order,
    each with a count of at least 1. *)
Lemma top_series_rows (df : DataFrame) (n : Z) :
  StronglySorted (fun x y : Pair * Z => snd y <= snd x) (top_series df n)
  /\ Forall (fun row : Pair * Z => 1 <= snd row) (top_series df n).
Proof.
  unfold top_series.
  destruct (head_rows_firstn n (sort_values (count_co_mentions df)))
    as [k Ek].
  rewrite Ek. split.
  - apply firstn_sorted, sort_values_sorted.
  - apply Forall_forall. intros row Hrow. apply In_firstn in Hrow.
    apply sorted_counter_rows in Hrow. apply (counter_row df row Hrow).
Qed.

(** X19.  The series drawn by [plot_top_country_pairs] is in descending
    order of the counts; each of its rows is a canonical pair with its
    count from the counter, no pair twice; for [top_n >= 0] it has [top_n]
    rows, or all the pairs when there are fewer; and no pair that is left
    out has a higher count than a pair that is shown. *)
Theorem top_series_selection (df : DataFrame) (top_n : Z) :
  let counter := count_co_mentions df in
  let top := top_series df top_n in
  StronglySorted (fun x y => snd y <= snd x) top
  /\ NoDup (map fst top)
  /\ Forall (fun row => In row counter
                        /\ lt (fst (fst row)) (snd (fst row))
                        /\ snd row = get Pair_eqb counter (fst row)
                        /\ 1 <= snd row) top
  /\ (0 <= top_n ->
      List.length top = Nat.min (Z.to_nat top_n) (List.length counter))
  /\ (forall kept out,
        In kept top -> In out counter -> ~ In out top ->
        snd out <= snd kept).
Proof.
  intros counter top. unfold top, top_series. fold counter.
  destruct (head_rows_firstn top_n (sort_values counter)) as [k Ek].
  pose proof (sort_values_sorted counter) as Hs.
  pose proof (sort_values_perm counter) as Hperm.
  split; [|split; [|split; [|split]]].
  - rewrite Ek. now apply firstn_sorted.
  - rewrite Ek. apply NoDup_firstn_map.
    apply (Permutation_NoDup (Permutation_map fst (Permutation_sym Hperm))).
    apply (count_co_mentions_invariants df).
  - apply Forall_forall. intros row Hrow. rewrite Ek in Hrow.
    apply In_firstn in Hrow. apply sorted_counter_rows in Hrow.
    split; [exact Hrow | now apply counter_row].
  - intros Hn. rewrite length_head_rows by assumption.
    now rewrite (Permutation_length Hperm).
  - intros kept out Hk Ho Hno. rewrite Ek in Hk, Hno.
    apply (@firstn_keeps_largest _ k (sort_values counter) kept out Hs Hk);
      [|exact Hno].
    now apply sorted_counter_rows.
Qed.

(** ** The widths of the network *)

Lemma fold_max_bounds (ws : list Z) (w : Z) :
  w <= fold_left Z.max ws w
  /\ Forall (fun x => x <= fold_left Z.max ws w) ws
  /\ In (fold_left Z.max ws w) (w :: ws).
Proof.
  revert w. induction ws as [|x ws IH]; intros w; simpl.
  - repeat split; [lia | constructor | now left].
  - destruct (IH (Z.max w x)) as [H1 [H2 H3]]. repeat split.
    + lia.
    + constructor; [lia | assumption].
    + destruct H3 as [H3 | H3]; [|now right; right].
      destruct (Z.max_spec w x) as [[_ E] | [_ E]]; rewrite E in *; auto.
Qed.

Lemma max_w_bounds (rows : list (Pair * Z)) :
  Forall (fun row => snd row <= max_w rows) rows
  /\ (rows <> [] -> In (max_w rows) (map snd rows)).
Proof.
  unfold max_w. destruct rows as [|[p w] rows]; simpl.
  - split; [constructor | congruence].
  - destruct (fold_max_bounds (map snd rows) w) as [H1 [H2 H3]]. split.
    + constructor; [exact H1|].
      rewrite Forall_map in H2. exact H2.
    + intros _. exact H3.
Qed.

(** X20.  In [plot_country_network] the divisor [max_w] is at least 1, so
    the widths are well defined.  Every edge kept has a weight between 1
    and [max_w] and a width in (0, 20]; an edge of weight [max_w] has
    width 20, and the first edge kept is one of them. *)
Theorem network_widths (df : DataFrame) (top_edges : Z) :
  let edges := top_dict df top_edges in
  let m := max_w edges in
  1 <= m
  /\ Forall (fun row => 1 <= snd row <= m
                        /\ (0 < width m (snd row) <= 20)%R) edges
  /\ width m m = 20%R
  /\ (edges = [] /\ m = 1 \/ exists p rest, edges = (p, m) :: rest).
Proof.
  intros edges m.
  assert (Hs : StronglySorted (fun x y : Pair * Z => snd y <= snd x) edges)
    by apply top_series_rows.
  assert (Hrows : Forall (fun row : Pair * Z => 1 <= snd row) edges)
    by apply top_series_rows.
  destruct (max_w_bounds edges) as [Hmax Hin].
  subst m. clearbody edges. set (m := max_w edges) in *.
  rewrite Forall_forall in Hrows, Hmax.
  assert (Hm : 1 <= m).
  { destruct edges as [|row rest].
    - unfold m, max_w. simpl. lia.
    - specialize (Hin ltac:(discriminate)).
      apply in_map_iff in Hin. destruct Hin as [row' [E Hrow']].
      rewrite <- E. now apply Hrows. }
  assert (HmR : (1 <= IZR m)%R) by now apply IZR_le.
  split; [exact Hm|]. split; [|split].
  - apply Forall_forall. intros row Hrow.
    pose proof (Hrows row Hrow) as H1. pose proof (Hmax row Hrow) as H2.
    split; [lia|]. unfold width.
    assert (H1R : (1 <= IZR (snd row))%R) by now apply IZR_le.
    assert (H2R : (IZR (snd row) <= IZR m)%R) by now apply IZR_le.
    split.
    + apply Rmult_lt_0_compat; [|lra].
      apply Rdiv_lt_0_compat; lra.
    + assert (IZR (snd row) / IZR m <= 1)%R; [|lra].
      apply Rmult_le_reg_r with (IZR m); [lra|].
      unfold Rdiv. rewrite Rmult_assoc, Rinv_l by lra. lra.
  - unfold width. unfold Rdiv. rewrite Rinv_r by lra. lra.
  - destruct edges as [|[p w] rest].
    + left. split; reflexivity.
    + right. exists p, rest. do 2 f_equal.
      inversion Hs as [|? ? _ Hfirst]; subst.
      pose proof (Hmax (p, w) (or_introl eq_refl)) as Hle. simpl in Hle.
      specialize (Hin ltac:(discriminate)). simpl in Hin.
      destruct Hin as [Hin | Hin]; [exact Hin|].
      apply in_map_iff in Hin. destruct Hin as [row [Erow Hrow]].
      rewrite Forall_forall in Hfirst.
      pose proof (Hfirst row Hrow) as Hge. simpl in Hge.
      fold m in Erow. lia.
Qed.

End PairsMore.

(* ================================================================== *)
(** * More about the subject breakdown *)

Module SubjectsMore.

Import Str StrFacts StrShape StrMore StrOrder Plot PlotSpec PlotData.

Local Open Scope Z_scope.

Lemma String_eqb_eq (x y : string) : String.eqb x y = true <-> x = y.
Proof. apply String.eqb_eq. Qed.

(** The loop of lines 145-148 is a run of increments over the labels of
    the entry. *)
Lemma count_entry_labels (counter : Counter string) (entry : string) :
  count_entry counter entry
  = fold_left (incr String.eqb) (labels_of_entry entry) counter.
Proof.
  unfold count_entry, labels_of_entry.
  generalize (split "," entry) as pieces. intros pieces. revert counter.
  induction pieces as [|subj pieces IH]; intros counter; simpl.
  - reflexivity.
  - rewrite IH. destruct (truthy (strip subj)); reflexivity.
Qed.

Lemma count_from_labels (entries : list string) (counter : Counter string) :
  fold_left count_entry entries counter
  = fold_left (incr String.eqb) (flat_map labels_of_entry entries) counter.
Proof.
  revert counter. induction entries as [|entry entries IH];
    intros counter; simpl.
  - reflexivity.
  - rewrite fold_left_app, IH, count_entry_labels. reflexivity.
Qed.

Lemma count_subjects_labels (df_pair : DataFrame) :
  count_subjects df_pair
  = fold_left (incr String.eqb) (labels_of df_pair) [].
Proof. apply count_from_labels. Qed.

Lemma label_clean (entry label : string) :
  In label (labels_of_entry entry) ->
  label <> EmptyString /\ strip label = label.
Proof.
  unfold labels_of_entry. rewrite filter_In, in_map_iff.
  intros [[piece [<- _]] Ht]. split.
  - intros E. rewrite E in Ht. discriminate Ht.
  - destruct (strip_ends piece) as [Hh Hl]. now apply strip_fixed.
Qed.

Lemma count_subjects_invariants (df_pair : DataFrame) :
  NoDup (keys (count_subjects df_pair))
  /\ Forall (fun row => 1 <= snd row) (count_subjects df_pair).
Proof.
  rewrite count_subjects_labels.
  apply (@fold_incr_invariants _ _ String_eqb_eq); constructor.
Qed.

(** X21.  The count of a label is the number of pieces, over the selected
    records that have a subject field, that are this label once stripped:
    a label written twice in one record counts twice.  The labels of the
    counter are those pieces; they are distinct, not empty and without
    white space at their ends, and each count is at least 1. *)
Theorem subject_counts (df_pair : DataFrame) :
  (forall label,
     get String.eqb (count_subjects df_pair) label
     = occurrences String.eqb (labels_of df_pair) label)
  /\ (forall label,
        In label (keys (count_subjects df_pair))
        <-> In label (labels_of df_pair))
  /\ NoDup (keys (count_subjects df_pair))
  /\ Forall (fun row => fst row <> EmptyString
                        /\ strip (fst row) = fst row
                        /\ 1 <= snd row) (count_subjects df_pair).
Proof.
  destruct (count_subjects_invariants df_pair) as [Hn Hp].
  assert (Hkeys : forall label,
             In label (keys (count_subjects df_pair))
             <-> In label (labels_of df_pair)).
  { intros label. rewrite count_subjects_labels.
    rewrite (@keys_fold_incr _ _ String_eqb_eq). simpl. tauto. }
  split; [|split; [exact Hkeys | split; [exact Hn|]]].
  - intros label. rewrite count_subjects_labels.
    rewrite (@get_fold_incr _ _ String_eqb_eq). simpl. lia.
  - apply Forall_forall. intros row Hrow.
    rewrite Forall_forall in Hp.
    assert (Hl : In (fst row) (labels_of df_pair)).
    { apply Hkeys. unfold keys. now apply in_map. }
    unfold labels_of in Hl. apply in_flat_map in Hl.
    destruct Hl as [entry [_ Hl]].
    destruct (label_clean _ _ Hl). auto.
Qed.

(** ** The series that is returned *)

Lemma sort_values_desc_generic (s : Series) :
  sort_values_desc s = sort_values s.
Proof.
  unfold sort_values_desc, sort_values.
  induction s as [|x s IH]; simpl; [reflexivity|]. rewrite IH.
  generalize (fold_right (@insert_by_value string) [] s) as l.
  induction l as [|y l IHl]; simpl; [reflexivity|].
  now rewrite IHl.
Qed.

Lemma head_generic (n : Z) (s : Series) : head n s = head_rows n s.
Proof. reflexivity. Qed.

(** What the function does on a frame that has rows. *)
Lemma plot_pair_outcome (df : DataFrame) (c1 c2 : string) (top_n : option Z) :
  df <> [] ->
  let counter := count_subjects (filter (mentions_both c1 c2) df) in
  plot_pair_mentions_by_subject df (c1, c2) top_n
  = if is_empty counter then ([print (msg_no_records c1 c2)], Return [])
    else match subj_series_of counter top_n with
         | [] => ([plt_figure], Raise IndexError)
         | row :: rows =>
             ([plt_figure;
               plot_bar (row :: rows);
               plt_xlabel "Subject Area";
               plt_ylabel "Number of papers mentioning both";
               plt_title (title_pair c1 c2);
               plt_xticks;
               plt_tight_layout;
               plt_show],
              Return (row :: rows))
         end.
Proof.
  intros Hdf counter. destruct df as [|r df]; [congruence|].
  unfold plot_pair_mentions_by_subject. fold counter.
  destruct (is_empty counter); [reflexivity|].
  unfold subj_series_of. rewrite sort_values_desc_generic.
  destruct top_n as [n|]; [destruct (n =? 0)|].
  - destruct (sort_values counter); reflexivity.
  - rewrite head_generic.
    destruct (head_rows n (sort_values counter)); reflexivity.
  - destruct (sort_values counter); reflexivity.
Qed.

Lemma subj_series_prefix (counter : Counter string) (top_n : option Z) :
  exists k, subj_series_of counter top_n = firstn k (sort_values counter).
Proof.
  unfold subj_series_of.
  destruct top_n as [n|]; [destruct (n =? 0)|].
  - exists (List.length (sort_values counter)). now rewrite firstn_all.
  - apply head_rows_firstn.
  - exists (List.length (sort_values counter)). now rewrite firstn_all.
Qed.

(** [head] leaves no row of a series that has rows only for a negative
    [top_n] that takes them all away. *)
Lemma subj_series_empty (counter : Counter string) (top_n : option Z) :
  counter <> [] ->
  (subj_series_of counter top_n = []
   <-> exists n, top_n = Some n /\ n < 0
                 /\ Z.of_nat (List.length counter) <= - n).
Proof.
  intros Hne.
  pose proof (Permutation_length (sort_values_perm counter)) as Hlen.
  assert (Hpos : (0 < List.length (sort_values counter))%nat).
  { rewrite Hlen. destruct counter; [congruence | simpl; lia]. }
  assert (Hnil : forall k, firstn k (sort_values counter) = []
                           <-> k = 0%nat).
  { intros k. split.
    - intros E. apply (f_equal (@List.length _)) in E.
      rewrite length_firstn in E. simpl in E. lia.
    - intros ->. reflexivity. }
  assert (Hfull : sort_values counter <> []).
  { intros E. rewrite E in Hpos. simpl in Hpos. lia. }
  unfold subj_series_of. destruct top_n as [n|].
  - destruct (Z.eqb_spec n 0) as [-> | Hn0].
    + split; [contradiction|]. intros [n [E [Hn _]]].
      injection E as <-. lia.
    + unfold head_rows. destruct (Z.leb_spec 0 n) as [Hn | Hn].
      * rewrite Hnil. split; [lia|].
        intros [n' [E [Hn' _]]]. injection E as <-. lia.
      * rewrite Hnil, Hlen. split.
        -- intros E. exists n. repeat split; lia.
        -- intros [n' [E [_ Hn']]]. injection E as <-. lia.
  - split; [contradiction|]. intros [n [E _]]. discriminate E.
Qed.

(** X22.  What [plot_pair_mentions_by_subject] hands back.  It raises in
    two cases only: [KeyError] on a frame without rows, and [IndexError]
    when the counter has labels and a negative [top_n] takes all the rows
    away.  A series that it returns is in descending order of the counts,
    holds rows of the counter, no label twice, and, when the counter has
    labels, has rows and is the series that is drawn.  Without [top_n], or
    with [top_n = 0], it holds every label; with [top_n = n > 0] it holds
    [n] labels, or all of them when there are fewer; and no label that is
    left out has a higher count than a label that is kept. *)
Theorem subject_series_returned
    (df : DataFrame) (c1 c2 : string) (top_n : option Z) :
  let counter := count_subjects (filter (mentions_both c1 c2) df) in
  let out := plot_pair_mentions_by_subject df (c1, c2) top_n in
  (forall e,
     snd out = Raise e <->
     (df = [] /\ e = KeyError)
     \/ (counter <> [] /\ e = IndexError
         /\ exists n, top_n = Some n /\ n < 0
                      /\ Z.of_nat (List.length counter) <= - n))
  /\ (forall s,
        snd out = Return s ->
        StronglySorted (fun x y => snd y <= snd x) s
        /\ NoDup (map fst s)
        /\ Forall (fun row => In row counter) s
        /\ (counter <> [] -> s <> [] /\ In (plot_bar s) (fst out))
        /\ (top_n = None \/ top_n = Some 0 -> Permutation s counter)
        /\ (forall n, top_n = Some n -> 0 < n ->
                      List.length s
                      = Nat.min (Z.to_nat n) (List.length counter))
        /\ (forall kept left_out,
              In kept s -> In left_out counter -> ~ In left_out s ->
              snd left_out <= snd kept)).
Proof.
  cbv zeta. destruct df as [|r0 df0].
  { (* no row *)
    split.
    - intros e. simpl. split.
      + intros E. injection E as <-. left. auto.
      + intros [[_ ->] | [Hc _]]; [reflexivity | now contradiction Hc].
    - intros s E. discriminate E. }
  set (df := r0 :: df0).
  assert (Hdf : df <> []) by discriminate.
  rewrite (plot_pair_outcome c1 c2 top_n Hdf). cbv zeta.
  set (counter := count_subjects (filter (mentions_both c1 c2) df)).
  assert (Hinv : NoDup (keys counter))
    by apply (count_subjects_invariants (filter (mentions_both c1 c2) df)).
  clearbody counter df.
  destruct (subj_series_prefix counter top_n) as [k Ek].
  pose proof (sort_values_sorted counter) as Hs.
  pose proof (sort_values_perm counter) as Hperm.
  destruct (is_empty counter) eqn:Hemp.
  { (* no label *)
    apply is_empty_nil in Hemp. split.
    - intros e. simpl. split; [discriminate|].
      intros [[E _] | [Hc _]]; [congruence | contradiction].
    - intros s E. injection E as <-. rewrite Hemp.
      split; [constructor|]. split; [constructor|]. split; [constructor|].
      split; [intros H; now contradiction H|].
      split; [intros _; apply Permutation_refl|].
      split; [intros n _ _; simpl; now rewrite Nat.min_0_r|].
      intros kept left_out []. }
  assert (Hc : counter <> []).
  { intros E. rewrite E in Hemp. discriminate Hemp. }
  pose proof (subj_series_empty top_n Hc) as Hnil.
  destruct (subj_series_of counter top_n) as [|row rows] eqn:Es.
  { (* [head] left no row *)
    split.
    - intros e. simpl. split.
      + intros E. injection E as <-. right.
        split; [assumption|]. split; [reflexivity|]. now apply Hnil.
      + intros [[E _] | [_ [-> _]]]; [congruence | reflexivity].
    - intros s E. discriminate E. }
  split.
  - intros e. simpl. split; [discriminate|].
    intros [[E _] | [_ [_ Hn]]]; [congruence|].
    apply Hnil in Hn. discriminate Hn.
  - intros s E. simpl in E. injection E as <-.
    split; [|split; [|split; [|split; [|split; [|split]]]]].
    + rewrite Ek. now apply firstn_sorted.
    + rewrite Ek. apply PairsMore.NoDup_firstn_map.
      apply (Permutation_NoDup
               (Permutation_map fst (Permutation_sym Hperm))).
      exact Hinv.
    + apply Forall_forall. intros x Hx. rewrite Ek in Hx.
      apply In_firstn in Hx. now apply (Permutation_in _ Hperm).
    + intros _. split; [discriminate|]. simpl. right. now left.
    + intros Hn. rewrite <- Es. unfold subj_series_of.
      destruct Hn as [-> | ->]; exact Hperm.
    + intros n -> Hn. rewrite <- Es. unfold subj_series_of.
      destruct (Z.eqb_spec n 0) as [E | _]; [lia|].
      rewrite length_head_rows by lia.
      now rewrite (Permutation_length Hperm).
    + intros kept left_out Hk Ho Hno. rewrite Ek in Hk, Hno.
      apply (@firstn_keeps_largest _ k (sort_values counter) kept left_out
               Hs Hk); [|exact Hno].
      now apply (Permutation_in _ (Permutation_sym Hperm)).
Qed.

(** X23.  The order of the two codes of the pair does not matter for the
    series that is returned, nor for whether a chart is drawn. *)
Theorem pair_order_irrelevant
    (df : DataFrame) (c1 c2 : string) (top_n : option Z) :
  snd (plot_pair_mentions_by_subject df (c1, c2) top_n)
  = snd (plot_pair_mentions_by_subject df (c2, c1) top_n)
  /\ existsb renders (fst (plot_pair_mentions_by_subject df (c1, c2) top_n))
     = existsb renders (fst (plot_pair_mentions_by_subject df (c2, c1) top_n)).
Proof.
  assert (E : filter (mentions_both c1 c2) df
              = filter (mentions_both c2 c1) df).
  { apply filter_ext. intros r. unfold mentions_both.
    destruct (countries_mentioned_list r); [apply andb_comm | reflexivity]. }
  destruct df as [|r0 df0]; [split; reflexivity|].
  set (df := r0 :: df0) in *.
  assert (Hdf : df <> []) by discriminate.
  rewrite !(plot_pair_outcome _ _ top_n Hdf). cbv zeta. rewrite E.
  destruct (is_empty (count_subjects (filter (mentions_both c2 c1) df)));
    [split; reflexivity|].
  destruct (subj_series_of
              (count_subjects (filter (mentions_both c2 c1) df)) top_n);
    split; reflexivity.
Qed.

(** X24.  The two parts of the module agree: when neither order of two
    different codes is a key of the co-mention counter of a frame that has
    rows, the subject breakdown of the pair finds no record, prints the
    diagnostic and returns the empty series. *)
Theorem uncounted_pair_no_chart
    (df : DataFrame) (c1 c2 : string) (top_n : option Z) :
  df <> [] ->
  c1 <> c2 ->
  ~ In (c1, c2) (keys (count_co_mentions df)) ->
  ~ In (c2, c1) (keys (count_co_mentions df)) ->
  filter (mentions_both c1 c2) df = []
  /\ plot_pair_mentions_by_subject df (c1, c2) top_n
     = ([print (msg_no_records c1 c2)], Return []).
Proof.
  intros Hdf Hne H12 H21.
  assert (Hf : filter (mentions_both c1 c2) df = []).
  { destruct (filter (mentions_both c1 c2) df) as [|r rest] eqn:E;
      [reflexivity|]. exfalso.
    assert (Hr : In r (filter (mentions_both c1 c2) df))
      by (rewrite E; now left).
    apply filter_In in Hr. destruct Hr as [Hr Hm].
    unfold count_co_mentions in H12, H21.
    destruct (String.compare c1 c2) eqn:Ec.
    - apply String.compare_eq_iff in Ec. contradiction.
    - apply H12. apply PairsMore.keys_count_from. right. simpl. split.
      + unfold lt, String.ltb. now rewrite Ec.
      + exists r. auto.
    - apply H21. apply PairsMore.keys_count_from. right. simpl. split.
      + unfold lt, String.ltb. rewrite String.compare_antisym, Ec.
        reflexivity.
      + exists r. split; [assumption|]. unfold mentions_both in *.
        destruct (countries_mentioned_list r); [|discriminate].
        now rewrite andb_comm. }
  split; [exact Hf|].
  apply plot_pair_empty_counter; [assumption | now rewrite Hf].
Qed.

Lemma uncounted_pair_no_chart_witness :
  plot_pair_mentions_by_subject corpus_pairs ("USA", "BRA")%string None
  = ([print "No records found mentioning both USA and BRA."], Return []).
Proof.
  refine (proj2 (@uncounted_pair_no_chart corpus_pairs "USA" "BRA" None
                   _ _ _ _)).
  - discriminate.
  - discriminate.
  - simpl. intros [H | [H | [H | []]]]; discriminate H.
  - simpl. intros [H | [H | [H | []]]]; discriminate H.
Defined.

End SubjectsMore.

(* ================================================================== *)
(** * Loading, then looking up *)

Module LoaderLookup.

Import Str StrFacts CodeGeo GeoSpec.

Lemma find_clean_codes (raw : DataFrame) (c : string) :
  find (fun r => (code r =? c)%string) (clean_codes raw)
  = option_map
      (fun r => mkCountry (clean_code (code r)) (latitude r) (longitude r))
      (find (fun r => (clean_code (code r) =? c)%string) raw).
Proof.
  unfold clean_codes. induction raw as [|r raw IH]; simpl.
  - reflexivity.
  - destruct (clean_code (code r) =? c)%string; [reflexivity | exact IH].
Qed.

(** X25.  A raw code is found under its cleaned spelling: when an
    argument, once upper-cased, is the cleaned code of a row of the raw
    table, the lookup in the loaded table succeeds, with the coordinates of
    the first raw row that cleans to that code. *)
Theorem loaded_code_found (raw : DataFrame) (r : CountryRecord) (iso : string) :
  In r raw -> clean_code (code r) = upper iso ->
  In (upper iso) (codes (clean_codes raw))
  /\ exists r0,
       find (fun r => (clean_code (code r) =? upper iso)%string) raw = Some r0
       /\ loc (clean_codes raw) (upper iso)
          = Return (latitude r0, longitude r0).
Proof.
  intros Hr Hc.
  assert (Hin : In (upper iso) (codes (clean_codes raw))).
  { rewrite codes_clean_codes, <- Hc. unfold codes.
    apply in_map, in_map, Hr. }
  split; [exact Hin|].
  destruct (find (fun r => (clean_code (code r) =? upper iso)%string) raw)
    as [r0|] eqn:Ef.
  - exists r0. split; [reflexivity|].
    unfold loc. rewrite find_clean_codes, Ef. reflexivity.
  - exfalso. apply (find_none _ _ Ef) in Hr.
    rewrite Hc, String.eqb_refl in Hr. discriminate Hr.
Qed.

Lemma loaded_code_found_witness :
  loc table_upper (upper "usa") = Return (38%R, (-97)%R).
Proof.
  destruct (@loaded_code_found
              [mkCountry " USA " 38 (-97); mkCountry "CAN" 60 (-95)]
              (mkCountry " USA " 38 (-97)) "usa"
              (or_introl eq_refl) eq_refl) as [_ [r0 [Ef El]]].
  injection Ef as <-. exact El.
Defined.

End LoaderLookup.
